(** * ethvalidator: the TTL cache, the beacon client, the resolution
      service and the error taxonomy, embedded in Rocq.

    Sources embedded here, each in a module of its own:
    - pkg/cache/memory.go              ([Cache])
    - pkg/errors                       ([Errors])
    - internal/api/handlers            ([Handlers]: the category of an error)
    - pkg/ethereum/client.go           ([Ethereum])
    - internal/domain                  ([Domain])
    - internal/service/validator.go    ([Service], its library calls in [GoLib])
    - internal/api/handlers/validator.go ([Api], with [ErrorText] for the
      text of an error and [Strconv], [GoStrings] for its library calls)
    [Statements] and [Sessions] hold the notions the theorems are stated
    with and the sample inputs; [CacheTheory] and [ServiceTheory] hold the
    proofs of the claims, [CacheMore], [ErrorsMore], [ServiceMore] and
    [ApiTheory] further properties of the code.

    Conventions.  A Go [uint64] is a [Z] in [0, 2^64) and every arithmetic
    operation that can leave that range has its wrap-around written out.  A
    Go [string] is a Rocq [string] (a sequence of bytes).  A Go
    [map[string]T] is a [gmap string T].  Go's [range] over a map visits the
    entries in an order chosen by the runtime: functions that range over a
    map take that order as an explicit argument, and the theorems hold for
    every order that enumerates the map.  Logging has no effect on results
    and is left out. *)

From stdpp Require Import gmap strings list fin_maps pretty.
From Stdlib Require Import ZArith Lia Ascii.

Local Open Scope string_scope.
Local Open Scope Z_scope.

(** ** Go runtime notions shared by the modules *)

(** A call either returns or panics (Go's [panic], which unwinds the
    caller). *)
Inductive completion (A : Type) : Type :=
| Returns (a : A)
| Panics (msg : string).
Arguments Returns {A} a.
Arguments Panics {A} msg.

(** [time.Time] as an instant: nanoseconds elapsed since Go's zero time
    (January 1, year 1, 00:00:00 UTC), so that [IsZero] is equality with 0.
    [time.Duration] is a count of nanoseconds. *)
Module GoTime.
Definition Time : Type := Z.
Definition Duration : Type := Z.

Definition After (t u : Time) : bool := bool_decide (u < t).
Definition Before (t u : Time) : bool := bool_decide (t < u).
Definition IsZero (t : Time) : bool := bool_decide (t = 0).
Definition Add (t : Time) (d : Duration) : Time := t + d.

(** Seconds between the zero time and the Unix epoch. *)
Definition unixToInternal : Z := 62135596800.
Definition Unix (t : Time) : Z := t `div` 1000000000 - unixToInternal.
End GoTime.
Import GoTime.

(** A channel that carries no values, as far as [close] is concerned. *)
Inductive chan : Type := ChanOpen | ChanClosed.

(** ** pkg/cache/memory.go *)
Module Cache.
Section memory.
(** The cache stores [interface{}] values. *)
Context {V : Type}.

Record cacheItem : Type := mkItem {
value : V;
expiration : Time;
}.

Record MemoryCache : Type := mkCache {
items : gmap string cacheItem;
ttl : Duration;
maxSize : Z;
stopChan : chan;
}.

Definition with_items (c : MemoryCache) (m : gmap string cacheItem) : MemoryCache :=
{| items := m; ttl := ttl c; maxSize := maxSize c; stopChan := stopChan c |}.

(** [NewMemoryCache]: an empty map and an open stop channel.  The reaper
  goroutine it starts is modelled by the [removeExpired] sweeps of the
  step relation below. *)
Definition NewMemoryCache (ttl : Duration) (maxSize : Z) : MemoryCache :=
{| items := ∅; ttl := ttl; maxSize := maxSize; stopChan := ChanOpen |}.

(** [Get] returns [(item.value, true)] as [Some], [(nil, false)] as
  [None], together with the cache after the call. *)
Definition Get (c : MemoryCache) (now : Time) (key : string) : option V * MemoryCache :=
match items c !! key with
| None => (None, c)
| Some item =>
    if After now (expiration item) then (None, c)
    else (Some (value item), c)
end.

Definition found (r : option V * MemoryCache) : bool :=
match r.1 with Some _ => true | None => false end.

(** One iteration of the loop of [evictOldest] on the pair
  [(oldestKey, oldestTime)]. *)
Definition evictOldest_visit (acc : string * Time) (kv : string * cacheItem) : string * Time :=
if IsZero acc.2 || Before (expiration kv.2) acc.2
then (kv.1, expiration kv.2)
else acc.

(** The loop of [evictOldest], visiting the entries in [order]; the
  variables start as the empty string and the zero time. *)
Definition evictOldest_scan (order : list (string * cacheItem)) : string * Time :=
foldl evictOldest_visit ("", 0) order.

Definition evictOldest (order : list (string * cacheItem))
  (m : gmap string cacheItem) : gmap string cacheItem :=
let oldestKey := (evictOldest_scan order).1 in
if bool_decide (oldestKey ≠ "") then delete oldestKey m else m.

(** [Set] (the name is a keyword of Rocq, hence [Set_]). *)
Definition Set_ (order : list (string * cacheItem)) (c : MemoryCache)
  (now : Time) (key : string) (v : V) : MemoryCache :=
let m := if bool_decide (maxSize c ≤ Z.of_nat (size (items c)))
         then evictOldest order (items c)
         else items c in
with_items c (<[key := {| value := v; expiration := Add now (ttl c) |}]> m).

Definition Delete (c : MemoryCache) (key : string) : MemoryCache :=
with_items c (delete key (items c)).

Definition Clear (c : MemoryCache) : MemoryCache :=
with_items c ∅.

(** [close] of a closed channel panics. *)
Definition Close (c : MemoryCache) : completion MemoryCache :=
match stopChan c with
| ChanOpen =>
    Returns {| items := items c; ttl := ttl c; maxSize := maxSize c;
               stopChan := ChanClosed |}
| ChanClosed => Panics "close of closed channel"
end.

(** [removeExpired]: every entry with [now.After(item.expiration)] is
  deleted; deleting while ranging is safe in Go and the result does not
  depend on the order. *)
Definition removeExpired (c : MemoryCache) (now : Time) : MemoryCache :=
with_items c (filter (λ kv, ¬ (expiration kv.2 < now)) (items c)).

(** *** Calls on a cache, and the states reachable through them *)
Inductive call : Type :=
| CallGet (key : string)
| CallSet (key : string) (v : V)
| CallDelete (key : string)
| CallClear
| CallSweep.

(** [step c now cl c']: the call [cl], made at time [now], takes the
  cache from [c] to [c'].  [Set] ranges over the map in some order. *)
Inductive step (c : MemoryCache) (now : Time) : call → MemoryCache → Prop :=
| step_get key : step c now (CallGet key) (Get c now key).2
| step_set key v order :
  order ≡ₚ map_to_list (items c) →
  step c now (CallSet key v) (Set_ order c now key v)
| step_delete key : step c now (CallDelete key) (Delete c key)
| step_clear : step c now CallClear (Clear c)
| step_sweep : step c now CallSweep (removeExpired c now).

Inductive steps : MemoryCache → list (Time * call) → MemoryCache → Prop :=
| steps_nil c : steps c [] c
| steps_cons c now cl c' tr c'' :
  step c now cl c' → steps c' tr c'' → steps c ((now, cl) :: tr) c''.

(** The keys a trace passes to [Set]. *)
Fixpoint set_keys (tr : list (Time * call)) : list string :=
match tr with
| [] => []
| (_, CallSet k _) :: tr => k :: set_keys tr
| _ :: tr => set_keys tr
end.
End memory.
Arguments cacheItem V : clear implicits.
Arguments MemoryCache V : clear implicits.
Arguments call V : clear implicits.
End Cache.

(** ** pkg/errors *)
Module Errors.
(** The package-level values made by [errors.New]; each is a distinct
    object and [errors.Is] compares them by identity. *)
Inductive sentinel : Type :=
| ErrSlotNotFound
| ErrFutureSlot
| ErrSlotTooFarInFuture
| ErrInvalidSlot
| ErrRPCConnection
| ErrTimeout
| ErrInternal.

#[export] Instance sentinel_eq_dec : EqDecision sentinel.
Proof. solve_decision. Defined.

(** Go [error] values, as far as [errors.Is] against the sentinels can
    tell them apart.  [Opaque] stands for any error that is none of the
    sentinels and unwraps to none of them: a [fmt.Errorf] without [%w], or
    an error made by library code (net/http, encoding/json, fmt). *)
Inductive error : Type :=
| Sentinel (s : sentinel)
| Opaque (msg : string)
| Wrapf (msg : string) (cause : error)
| ValidationError (Field : string) (Value : string) (Err : error)
| RPCError (Code : Z) (Message : string).

(** [errors.Is(err, target)] for a sentinel [target]: walk the [Unwrap]
    chain and compare by identity.  [fmt.Errorf] with [%w] and
    [ValidationError] unwrap; [RPCError] does not. *)
Fixpoint Is (err : error) (target : sentinel) : bool :=
  match err with
  | Sentinel s => bool_decide (s = target)
  | Wrapf _ cause => Is cause target
  | ValidationError _ _ e => Is e target
  | Opaque _ | RPCError _ _ => false
  end.

Definition NewValidationError (field value : string) (err : error) : error :=
  ValidationError field value err.

Definition IsNotFound (err : error) : bool := Is err ErrSlotNotFound.

Definition IsBadRequest (err : error) : bool :=
  Is err ErrFutureSlot || Is err ErrInvalidSlot || Is err ErrSlotTooFarInFuture.

Definition IsTimeout (err : error) : bool := Is err ErrTimeout.

(** The Go idiom [(T, error)]. *)
Inductive result (A : Type) : Type :=
| Ok (a : A)
| Err (e : error).
Arguments Ok {A} a.
Arguments Err {A} e.
End Errors.
Import Errors.

(** ** internal/api/handlers: the response category of a service error *)
Module Handlers.
Definition StatusBadRequest : Z := 400.
Definition StatusNotFound : Z := 404.
Definition StatusRequestTimeout : Z := 408.
Definition StatusInternalServerError : Z := 500.

(** The status code [handleServiceError] responds with. *)
Definition handleServiceError (err : error) : Z :=
  if IsNotFound err then StatusNotFound
  else if IsBadRequest err then StatusBadRequest
  else if IsTimeout err then StatusRequestTimeout
  else StatusInternalServerError.
End Handlers.

(** Unsigned 64-bit arithmetic. *)
Module U64.
Definition modulus : Z := 2 ^ 64.
Definition wrap (x : Z) : Z := x `mod` modulus.
Definition add (x y : Z) : Z := wrap (x + y).
Definition sub (x y : Z) : Z := wrap (x - y).
Definition mul (x y : Z) : Z := wrap (x * y).
Definition div (x y : Z) : Z := x `div` y.
Definition in_range (x : Z) : Prop := 0 ≤ x < modulus.

(** [fmt.Sprintf("%d", x)]. *)
Definition fmt_d (x : Z) : string := pretty x.
End U64.

(** ** pkg/ethereum/client.go *)
Module Ethereum.
Record ExecutionPayload : Type := {
  FeeRecipient : string;
  BlockHash : string;
  Transactions : list string;
  BaseFeePerGas : string;
  GasUsed : string;
  BlockNumber : string;
}.

Record SyncAggregate : Type := {
  SyncCommitteeBits : string;
  SyncCommitteeSignature : string;
}.

(** The two pointer fields are [nil] or point to a value. *)
Record BlockBody : Type := {
  BodyExecutionPayload : option ExecutionPayload;
  BodySyncAggregate : option SyncAggregate;
}.

Record BlockMessage : Type := {
  Slot : string;
  ProposerIndex : string;
  ParentRoot : string;
  StateRoot : string;
  Body : BlockBody;
}.

Record BeaconBlockData : Type := {
  Message : BlockMessage;
  Signature : string;
}.

Record BeaconBlock : Type := {
  Version : string;
  Data : BeaconBlockData;
}.

Record BlockRewards : Type := {
  RewardsProposerIndex : string;
  Total : string;
  Attestations : string;
  RewardsSyncAggregate : string;
  ProposerSlashings : string;
  AttesterSlashings : string;
}.

Record SyncCommitteeData : Type := { Validators : list string }.
Record SyncCommitteeResponse : Type := { SyncData : SyncCommitteeData }.
Record GenesisData : Type := { GenesisTime : string }.
Record GenesisResponse : Type := { GenesisDataOf : GenesisData }.

(** What a GET on a beacon endpoint comes to, decoded at the type the
    caller asks for: the request could not be built, [httpClient.Do]
    failed, or the node answered with a status code and a body that
    [json] decodes or not.  The causes are library errors. *)
Inductive reply (A : Type) : Type :=
| NewRequestFailed (cause : string)
| DoFailed (cause : string)
| Answered (StatusCode : Z) (decoded : string + A).
Arguments NewRequestFailed {A} cause.
Arguments DoFailed {A} cause.
Arguments Answered {A} StatusCode decoded.

(** The beacon node behind [rpcEndpoint], by endpoint, and the library
    call [fmt.Sscanf(s, "%d", &n)] on a [uint64] that [parseUint64]
    makes (an error message or the number scanned). *)
Record Node : Type := {
  get_block : string → reply BeaconBlock;
  get_rewards : string → reply BlockRewards;
  get_sync_committees : string → reply SyncCommitteeResponse;
  get_genesis : string → reply GenesisResponse;
  Sscanf_d : string → string + Z;
}.

Definition doBeaconRequest {A : Type} (r : reply A) : result A :=
  match r with
  | NewRequestFailed cause => Err (Wrapf "failed to create request" (Opaque cause))
  | DoFailed cause => Err (Wrapf "request failed" (Opaque cause))
  | Answered code decoded =>
      if bool_decide (code = 404) then Err (Sentinel ErrSlotNotFound)
      else if bool_decide (code ≠ 200) then Err (Opaque "unexpected status code")
      else match decoded with
           | inl cause => Err (Wrapf "failed to decode response" (Opaque cause))
           | inr a => Ok a
           end
  end.

Definition parseUint64 (w : Node) (s : string) : result Z :=
  match Sscanf_d w s with
  | inl cause => Err (Opaque cause)
  | inr n => Ok n
  end.

Section client.
Variable w : Node.

Definition GetBlockBySlot (slot : Z) : result BeaconBlock :=
  doBeaconRequest (get_block w ("blocks/" +:+ U64.fmt_d slot)).

(** The state the committee is asked for. *)
Definition GetSyncCommittee_stateID (slot : Z) : Z :=
  let epoch := U64.div slot 32 in
  let syncCommitteePeriod := U64.div epoch 256 in
  U64.mul (U64.mul syncCommitteePeriod 256) 32.

Definition GetSyncCommittee_endpoint (slot : Z) : string :=
  "states/" +:+ U64.fmt_d (GetSyncCommittee_stateID slot) +:+ "/sync_committees".

Definition GetSyncCommittee (slot : Z) : result (list string) :=
  match doBeaconRequest (get_sync_committees w (GetSyncCommittee_endpoint slot)) with
  | Err e => Err e
  | Ok resp => Ok (Validators (SyncData resp))
  end.

(** [now] is the reading of [time.Now()]. *)
Definition GetCurrentSlot (now : Time) : result Z :=
  match doBeaconRequest (get_genesis w "genesis") with
  | Err e => Err e
  | Ok genesis =>
      match parseUint64 w (GenesisTime (GenesisDataOf genesis)) with
      | Err e => Err (Wrapf "failed to parse genesis time" e)
      | Ok genesisTime =>
          let currentTime := U64.wrap (Unix now) in
          if bool_decide (currentTime < genesisTime)
          then Err (Opaque "current time is before genesis")
          else Ok (U64.div (U64.sub currentTime genesisTime) 12)
      end
  end.

Definition GetBlockRewards (slot : Z) : result BlockRewards :=
  doBeaconRequest (get_rewards w ("rewards/blocks/" +:+ U64.fmt_d slot)).
End client.

(** The [Client] interface, as the service sees it during one call. *)
Record Client : Type := {
  ClientGetBlockBySlot : Z → result BeaconBlock;
  ClientGetSyncCommittee : Z → result (list string);
  ClientGetCurrentSlot : result Z;
  ClientGetBlockRewards : Z → result BlockRewards;
}.

(** The [client] of this package against node [w], the clock reading
    [now] when the current slot is asked for. *)
Definition client (w : Node) (now : Time) : Client := {|
  ClientGetBlockBySlot := GetBlockBySlot w;
  ClientGetSyncCommittee := GetSyncCommittee w;
  ClientGetCurrentSlot := GetCurrentSlot w now;
  ClientGetBlockRewards := GetBlockRewards w;
|}.
End Ethereum.
Import Ethereum.

(** ** internal/domain *)
Module Domain.
(** [Reward] is a [*big.Int]. *)
Record BlockReward : Type := {
  Status : string;
  Reward : Z;
}.

Record SyncCommitteeDuties : Type := {
  DutiesValidators : list string;
}.
End Domain.
Import Domain.

(** ** Library calls of internal/service/validator.go *)
Module GoLib.
(** [strings.HasPrefix(s, prefix)]. *)
Definition HasPrefix (s prefix : string) : bool := String.prefix prefix s.

(** [strings.ToLower] on the bytes of an ASCII string.  On the other
    runes Go maps by Unicode case; none of them is mapped to a
    hexadecimal digit or to the letter x, so comparing the result with a
    string of such characters is not affected. *)
Definition lower_byte (c : ascii) : ascii :=
  let n := nat_of_ascii c in
  if (65 <=? n)%nat && (n <=? 90)%nat then ascii_of_nat (n + 32) else c.

Fixpoint ToLower (s : string) : string :=
  match s with
  | EmptyString => EmptyString
  | String c s' => String (lower_byte c) (ToLower s')
  end.

Definition digit_value (c : ascii) : option Z :=
  let n := nat_of_ascii c in
  if (48 <=? n)%nat && (n <=? 57)%nat then Some (Z.of_nat n - 48) else None.

(** The digit loop of [math/big]'s scanner in base 10, [acc] the value
    of the digits read so far; [None] at a byte that is no digit. *)
Fixpoint scan_digits (s : string) (acc : Z) : option Z :=
  match s with
  | EmptyString => Some acc
  | String c s' =>
      match digit_value c with
      | Some d => scan_digits s' (acc * 10 + d)
      | None => None
      end
  end.

Definition scan_abs (s : string) : option Z :=
  match s with
  | EmptyString => None
  | _ => scan_digits s 0
  end.

(** [new(big.Int).SetString(s, 10)]: an optional sign [+] or [-], then
    one or more decimal digits, and the whole string must be used up
    (underscores are only accepted with base 0).  [None] is [ok = false]. *)
Definition SetString10 (s : string) : option Z :=
  match s with
  | String "+"%char rest => scan_abs rest
  | String "-"%char rest => Z.opp <$> scan_abs rest
  | _ => scan_abs s
  end.
End GoLib.
Import GoLib.

(** ** internal/service/validator.go *)
Module Service.
(** What the cache holds behind [interface{}]. *)
Inductive cached : Type :=
| CachedBlockReward (r : BlockReward)
| CachedSyncCommitteeDuties (d : SyncCommitteeDuties).

(** [cache] is [None] for a nil [Cache]; the implementation of the
    interface is [MemoryCache]. *)
Record validatorService : Type := {
  ethClient : Client;
  cache : option (Cache.MemoryCache cached);
}.

Definition with_cache (s : validatorService) (c : option (Cache.MemoryCache cached)) : validatorService :=
  {| ethClient := ethClient s; cache := c |}.

Definition mevPatterns : list string :=
  ["0xa22cb465"; "0x095ea7b3"; "0x23b872dd"].

Definition isMEVTransaction (txHex : string) : bool :=
  if (String.length txHex <? 10)%nat then false
  else existsb (λ pattern, HasPrefix txHex pattern) mevPatterns.

Definition knownMEVRelays : list string :=
  ["0x95222290dd7278aa3ddd389cc1e1d165cc4bafe5";
   "0x388c818ca8b9251b393131c08a736a67ccb19297";
   "0x8b5d7a6055e54e36e8a6e2a128c5d0f38f4e5e83"].

Definition determineBlockStatus (block : BeaconBlock) : string :=
  match BodyExecutionPayload (Body (Message (Data block))) with
  | None => "vanilla"
  | Some payload =>
      if (List.length (Transactions payload) =? 0)%nat then "vanilla"
      else if existsb isMEVTransaction (Transactions payload) then "mev"
      else
        let feeRecipient := ToLower (FeeRecipient payload) in
        if existsb (λ relay, bool_decide (feeRecipient = relay)) knownMEVRelays
        then "mev"
        else "vanilla"
  end.

Definition parseReward (rewardStr : string) : result Z :=
  match SetString10 rewardStr with
  | None => Err (Opaque ("invalid reward format: " +:+ rewardStr))
  | Some reward => Ok reward
  end.

Definition slotToEpoch (slot : Z) : Z := U64.div slot 32.
Definition epochToSyncCommitteePeriod (epoch : Z) : Z := U64.div epoch 256.
Definition syncCommitteePeriodToSlot (period : Z) : Z :=
  U64.mul (U64.mul period 256) 32.

(** [s.cache != nil] and [s.cache.Get(cacheKey)]: the value found, if
    any, and the service after the lookup. *)
Definition cache_get (s : validatorService) (now : Time) (cacheKey : string)
    : option cached * validatorService :=
  match cache s with
  | None => (None, s)
  | Some c => let r := Cache.Get c now cacheKey in (r.1, with_cache s (Some r.2))
  end.

(** [s.cache != nil] and [s.cache.Set(cacheKey, result)]. *)
Definition cache_set (s : validatorService) (order : list (string * Cache.cacheItem cached))
    (now : Time) (cacheKey : string) (v : cached) : validatorService :=
  match cache s with
  | None => s
  | Some c => with_cache s (Some (Cache.Set_ order c now cacheKey v))
  end.

(** The clock readings of one call: at the cache lookup and at the
    cache fill; [range_order] is the order in which the fill, if it
    evicts, ranges over the map. *)
Record timing : Type := {
  t_lookup : Time;
  t_fill : Time;
  range_order : list (string * Cache.cacheItem cached);
}.

(** [GetBlockReward] after the bounds check: fetch, classify, fill. *)
Definition GetBlockReward_fetch (s : validatorService) (tm : timing) (slot : Z)
    : completion (result BlockReward) * validatorService :=
  let cacheKey := "block_reward:" +:+ U64.fmt_d slot in
  match ClientGetBlockBySlot (ethClient s) slot with
  | Err err =>
      if IsNotFound err then (Returns (Err (Sentinel ErrSlotNotFound)), s)
      else (Returns (Err (Wrapf "failed to get block" err)), s)
  | Ok block =>
      match ClientGetBlockRewards (ethClient s) slot with
      | Err err => (Returns (Err (Wrapf "failed to get block rewards" err)), s)
      | Ok rewards =>
          let status := determineBlockStatus block in
          match parseReward (Total rewards) with
          | Err err => (Returns (Err (Wrapf "failed to parse reward" err)), s)
          | Ok totalReward =>
              let result := {| Status := status; Reward := totalReward |} in
              (Returns (Ok result),
               cache_set s (range_order tm) (t_fill tm) cacheKey (CachedBlockReward result))
          end
      end
  end.

Definition GetBlockReward (s : validatorService) (tm : timing) (slot : Z)
    : completion (result BlockReward) * validatorService :=
  let cacheKey := "block_reward:" +:+ U64.fmt_d slot in
  match cache_get s (t_lookup tm) cacheKey with
  | (Some (CachedBlockReward r), s) => (Returns (Ok r), s)
  | (Some (CachedSyncCommitteeDuties _), s) => (Panics "interface conversion", s)
  | (None, s) =>
      match ClientGetCurrentSlot (ethClient s) with
      | Err err => (Returns (Err (Wrapf "failed to get current slot" err)), s)
      | Ok currentSlot =>
          if bool_decide (currentSlot < slot)
          then (Returns (Err (Sentinel ErrFutureSlot)), s)
          else GetBlockReward_fetch s tm slot
      end
  end.

(** [GetSyncCommitteeDuties] after the bounds check. *)
Definition GetSyncCommitteeDuties_fetch (s : validatorService) (tm : timing) (slot : Z)
    : completion (result SyncCommitteeDuties) * validatorService :=
  let cacheKey := "sync_duties:" +:+ U64.fmt_d slot in
  match ClientGetSyncCommittee (ethClient s) slot with
  | Err err =>
      if IsNotFound err then (Returns (Err (Sentinel ErrSlotNotFound)), s)
      else (Returns (Err (Wrapf "failed to get sync committee" err)), s)
  | Ok validators =>
      let result := {| DutiesValidators := validators |} in
      (Returns (Ok result),
       cache_set s (range_order tm) (t_fill tm) cacheKey (CachedSyncCommitteeDuties result))
  end.

Definition GetSyncCommitteeDuties (s : validatorService) (tm : timing) (slot : Z)
    : completion (result SyncCommitteeDuties) * validatorService :=
  let cacheKey := "sync_duties:" +:+ U64.fmt_d slot in
  match cache_get s (t_lookup tm) cacheKey with
  | (Some (CachedSyncCommitteeDuties d), s) => (Returns (Ok d), s)
  | (Some (CachedBlockReward _), s) => (Panics "interface conversion", s)
  | (None, s) =>
      match ClientGetCurrentSlot (ethClient s) with
      | Err err => (Returns (Err (Wrapf "failed to get current slot" err)), s)
      | Ok currentSlot =>
          if bool_decide (U64.add currentSlot (32 * 256) < slot)
          then (Returns (Err (Sentinel ErrSlotTooFarInFuture)), s)
          else GetSyncCommitteeDuties_fetch s tm slot
      end
  end.
End Service.

(** ** pkg/errors: the text of an error *)
Module ErrorText.
Definition sentinel_text (s : sentinel) : string :=
  match s with
  | ErrSlotNotFound => "slot not found"
  | ErrFutureSlot => "requested slot is in the future"
  | ErrSlotTooFarInFuture => "requested slot is too far in the future"
  | ErrInvalidSlot => "invalid slot number"
  | ErrRPCConnection => "RPC connection error"
  | ErrTimeout => "request timeout"
  | ErrInternal => "internal server error"
  end.

(** [err.Error()].  [Wrapf msg cause] stands for
    [fmt.Errorf("<msg>: %w", cause)], the one shape in which the
    repository wraps; the [Value] of a [ValidationError] is always a
    string here, which [%v] prints as it is. *)
Fixpoint Error (err : error) : string :=
  match err with
  | Sentinel s => sentinel_text s
  | Opaque msg => msg
  | Wrapf msg cause => msg +:+ ": " +:+ Error cause
  | ValidationError field value e =>
      "validation failed for field " +:+ field +:+ " with value " +:+ value +:+ ": "
        +:+ Error e
  | RPCError code message => "RPC error " +:+ U64.fmt_d code +:+ ": " +:+ message
  end.
End ErrorText.

(** ** Library calls of the handlers and of [parseSlot] *)
Module Strconv.
(** The two errors of [strconv]: [ErrSyntax] and [ErrRange]. *)
Inductive num_error : Type := ErrSyntax | ErrRange.

Definition maxUint64 : Z := 2 ^ 64 - 1.

(** The smallest number such that [cutoff * 10 > maxUint64]. *)
Definition cutoff : Z := maxUint64 / 10 + 1.

(** The loop of [strconv.ParseUint(s, 10, 64)] over the bytes of [s],
    [n] the value read so far.  A byte that is no decimal digit is a
    syntax error (a letter is a digit of a larger base, an underscore is
    only read with base 0); the two overflow tests are a range error. *)
Fixpoint ParseUint_loop (s : string) (n : Z) : num_error + Z :=
  match s with
  | EmptyString => inr n
  | String c s' =>
      match digit_value c with
      | None => inl ErrSyntax
      | Some d =>
          if bool_decide (cutoff ≤ n) then inl ErrRange
          else
            let n10 := U64.mul n 10 in
            let n1 := U64.add n10 d in
            if bool_decide (n1 < n10) || bool_decide (maxUint64 < n1) then inl ErrRange
            else ParseUint_loop s' n1
      end
  end.

(** [strconv.ParseUint(s, 10, 64)]. *)
Definition ParseUint (s : string) : num_error + Z :=
  match s with
  | EmptyString => inl ErrSyntax
  | _ => ParseUint_loop s 0
  end.

(** The [*NumError] that [ParseUint] returns, as an [error]: a library
    error, its text shortened to the cause. *)
Definition NumError (e : num_error) : error :=
  match e with
  | ErrSyntax => Opaque "invalid syntax"
  | ErrRange => Opaque "value out of range"
  end.
End Strconv.

(** [strings.HasSuffix], [strings.TrimPrefix] and [strings.TrimSuffix]. *)
Module GoStrings.
Definition HasSuffix (s suffix : string) : bool :=
  (String.length suffix <=? String.length s)%nat &&
  bool_decide (String.substring (String.length s - String.length suffix)
                 (String.length suffix) s = suffix).

Definition TrimPrefix (s prefix : string) : string :=
  if HasPrefix s prefix
  then String.substring (String.length prefix) (String.length s - String.length prefix) s
  else s.

Definition TrimSuffix (s suffix : string) : string :=
  if HasSuffix s suffix
  then String.substring 0 (String.length s - String.length suffix) s
  else s.
End GoStrings.

(** ** internal/service/validator.go: [parseSlot] *)
Module ServiceSlot.
Definition parseSlot (slotStr : string) : result Z :=
  match Strconv.ParseUint slotStr with
  | inl err => Err (Wrapf "invalid slot format" (Strconv.NumError err))
  | inr slot => Ok slot
  end.
End ServiceSlot.

(** ** internal/api/handlers/validator.go *)
Module Api.
Import Strconv GoStrings.

(** The [ValidatorService] interface, as a handler sees it during one
    request. *)
Record ValidatorService : Type := {
  SvcGetBlockReward : Z → result BlockReward;
  SvcGetSyncCommitteeDuties : Z → result SyncCommitteeDuties;
}.

(** What [Response.Data] holds. *)
Inductive data : Type :=
| DataBlockReward (r : BlockReward)
| DataSyncCommitteeDuties (d : SyncCommitteeDuties).

(** [Response]: [Data] is nil or a result, [Error] is empty or a text. *)
Record Response : Type := {
  RespData : option data;
  RespError : string;
}.

(** What a handler writes: the status code given to [WriteHeader] and the
    [Response] it encodes as the body. *)
Record written : Type := {
  StatusCode : Z;
  Body : Response;
}.

Definition StatusOK : Z := 200.

Definition respondJSON (status : Z) (d : data) : written :=
  {| StatusCode := status; Body := {| RespData := Some d; RespError := "" |} |}.

Definition respondError (status : Z) (err : error) : written :=
  {| StatusCode := status;
     Body := {| RespData := None; RespError := ErrorText.Error err |} |}.

Definition parseSlotFromPath (path prefix : string) : result Z :=
  if negb (HasPrefix path prefix)
  then Err (NewValidationError "path" path (Sentinel ErrInvalidSlot))
  else
    let slotStr := TrimPrefix path prefix in
    let slotStr := TrimSuffix slotStr "/" in
    if bool_decide (slotStr = "")
    then Err (NewValidationError "slot" "" (Sentinel ErrInvalidSlot))
    else match ParseUint slotStr with
         | inl err => Err (NewValidationError "slot" slotStr (NumError err))
         | inr slot => Ok slot
         end.

(** [handleServiceError], with the body it writes. *)
Definition handleServiceError (err : error) : written :=
  if IsNotFound err then respondError Handlers.StatusNotFound err
  else if IsBadRequest err then respondError Handlers.StatusBadRequest err
  else if IsTimeout err then respondError Handlers.StatusRequestTimeout err
  else respondError Handlers.StatusInternalServerError (Sentinel ErrInternal).

(** The handler [GetBlockReward] on the request path [path]. *)
Definition GetBlockReward (svc : ValidatorService) (path : string) : written :=
  match parseSlotFromPath path "/blockreward/" with
  | Err _ => respondError Handlers.StatusBadRequest (Sentinel ErrInvalidSlot)
  | Ok slot =>
      match SvcGetBlockReward svc slot with
      | Err err => handleServiceError err
      | Ok reward => respondJSON StatusOK (DataBlockReward reward)
      end
  end.

(** The handler [GetSyncDuties]. *)
Definition GetSyncDuties (svc : ValidatorService) (path : string) : written :=
  match parseSlotFromPath path "/syncduties/" with
  | Err _ => respondError Handlers.StatusBadRequest (Sentinel ErrInvalidSlot)
  | Ok slot =>
      match SvcGetSyncCommitteeDuties svc slot with
      | Err err => handleServiceError err
      | Ok duties => respondJSON StatusOK (DataSyncCommitteeDuties duties)
      end
  end.
End Api.

(** * Notions used in the statements, and sample inputs *)
Module Statements.
Import Cache Service.

(** ** For the cache *)

(** [earliest m it]: no entry of [m] expires before [it]. *)
Definition earliest {V} (m : gmap string (cacheItem V)) (it : cacheItem V) : Prop :=
  ∀ k' it', m !! k' = Some it' → expiration it ≤ expiration it'.

(** No entry carries the zero time as its expiration (the scan of
    [evictOldest] uses the zero time for "nothing seen yet"). *)
Definition stamped {V} (m : gmap string (cacheItem V)) : Prop :=
  ∀ k it, m !! k = Some it → expiration it ≠ 0.

(** A cache with room for two entries, full with ["a"] and ["b"]. *)
Definition full_cache : MemoryCache Z :=
  let c0 := NewMemoryCache 100 2 in
  let c1 := Set_ (map_to_list (items c0)) c0 1 "a" 11 in
  Set_ (map_to_list (items c1)) c1 2 "b" 22.

(** ** For the service *)

(** The leading 4-byte selector of a transaction in 0x-hex: its first
    ten characters. *)
Definition selector (txHex : string) : string := String.substring 0 10 txHex.

(** Equality up to the case of ASCII letters. *)
Definition EqualFold (a b : string) : Prop := ToLower a = ToLower b.

Definition block_with (fee : string) (txs : list string) : BeaconBlock :=
  {| Version := "";
     Data := {| Message := {| Slot := ""; ProposerIndex := ""; ParentRoot := "";
                              StateRoot := "";
                              Body := {| BodyExecutionPayload :=
                                           Some {| FeeRecipient := fee; BlockHash := "";
                                                   Transactions := txs; BaseFeePerGas := "";
                                                   GasUsed := ""; BlockNumber := "" |};
                                         BodySyncAggregate := None |} |};
                Signature := "" |} |}.

Definition is_digit (c : ascii) : bool :=
  let n := nat_of_ascii c in (48 <=? n)%nat && (n <=? 57)%nat.

Fixpoint all_digits (s : string) : bool :=
  match s with
  | EmptyString => true
  | String c s' => is_digit c && all_digits s'
  end.

(** The number a string of decimal digits denotes, most significant
    digit first. *)
Fixpoint decimal_value (s : string) : Z :=
  match s with
  | EmptyString => 0
  | String c s' =>
      (Z.of_nat (nat_of_ascii c) - 48) * 10 ^ Z.of_nat (String.length s') + decimal_value s'
  end.

(** A valid non-negative base-10 integer: one or more decimal digits. *)
Definition nonneg_decimal (s : string) : Prop := s ≠ "" ∧ all_digits s = true.

(** A base-10 integer with an optional sign, and the number it denotes. *)
Inductive signed_decimal : string → Z → Prop :=
| signed_plain body :
    nonneg_decimal body → signed_decimal body (decimal_value body)
| signed_plus body :
    nonneg_decimal body → signed_decimal (String "+" body) (decimal_value body)
| signed_minus body :
    nonneg_decimal body → signed_decimal (String "-" body) (- decimal_value body).

(** A node whose genesis time is 1606824023, read when the Unix clock
    shows 240000 seconds more: the current slot is 20000. *)
Definition demo_node : Node := {|
  get_block := λ _, Answered 404 (inl "");
  get_rewards := λ _, Answered 404 (inl "");
  get_sync_committees := λ _,
    Answered 200 (inr {| SyncData := {| Validators := ["0xvalidator1"; "0xvalidator2"] |} |});
  get_genesis := λ _,
    Answered 200 (inr {| GenesisDataOf := {| GenesisTime := "1606824023" |} |});
  Sscanf_d := λ s, match SetString10 s with
                   | Some n => inr n
                   | None => inl "expected integer"
                   end;
|}.

(** A node that holds the sync committee of the state at slot 8192, the
    first slot of the period of slot 12345, and of no other state. *)
Definition period_node : Node := {|
  get_block := λ _, Answered 404 (inl "");
  get_rewards := λ _, Answered 404 (inl "");
  get_sync_committees := λ endpoint,
    if bool_decide (endpoint = "states/8192/sync_committees")
    then Answered 200 (inr {| SyncData := {| Validators := ["0xvalidator1"; "0xvalidator2"] |} |})
    else Answered 404 (inl "");
  get_genesis := get_genesis demo_node;
  Sscanf_d := Sscanf_d demo_node;
|}.

Definition demo_now : Time := (1606824023 + 240000 + unixToInternal) * 1000000000.

Definition demo_service : validatorService :=
  {| ethClient := client demo_node demo_now; cache := None |}.

Definition demo_timing : timing :=
  {| t_lookup := demo_now; t_fill := demo_now; range_order := [] |}.

(** The client of the service's tests: the current slot is 20000 and
    there is neither a block nor a committee. *)
Definition missed_slot_client : Client := {|
  ClientGetBlockBySlot := λ _, Err (Sentinel ErrSlotNotFound);
  ClientGetSyncCommittee := λ _, Err (Sentinel ErrSlotNotFound);
  ClientGetCurrentSlot := Ok 20000;
  ClientGetBlockRewards := λ _, Err (Opaque "not reached");
|}.

(** The client of the test "successful MEV block": the current slot is
    20000, slot 12345 holds a block with one transaction, and its reward
    total is 10^18. *)
Definition mev_block_client : Client := {|
  ClientGetBlockBySlot := λ _,
    Ok (block_with "0x95222290dd7278aa3ddd389cc1e1d165cc4bafe5" ["0xa22cb465..."]);
  ClientGetSyncCommittee := λ _, Err (Sentinel ErrSlotNotFound);
  ClientGetCurrentSlot := Ok 20000;
  ClientGetBlockRewards := λ _,
    Ok {| RewardsProposerIndex := ""; Total := "1000000000000000000"; Attestations := "";
          RewardsSyncAggregate := ""; ProposerSlashings := ""; AttesterSlashings := "" |};
|}.

(** A service over that client with an empty cache of 1000 entries and a
    TTL of five minutes. *)
Definition mev_service : validatorService :=
  {| ethClient := mev_block_client;
     cache := Some (Cache.NewMemoryCache 300000000000 1000) |}.
End Statements.

(** * Further notions: sequences of service calls *)
Module Sessions.
Import Cache Service.

(** The two queries of the service and their answers. *)
Inductive query : Type :=
| QueryReward (slot : Z)
| QueryDuties (slot : Z).

Inductive answer : Type :=
| AnswerReward (r : BlockReward)
| AnswerDuties (d : SyncCommitteeDuties).

Definition answered {A} (f : A → answer) (c : completion (result A))
    : completion (result answer) :=
  match c with
  | Returns (Ok a) => Returns (Ok (f a))
  | Returns (Err e) => Returns (Err e)
  | Panics msg => Panics msg
  end.

Definition with_client (s : validatorService) (cl : Client) : validatorService :=
  {| ethClient := cl; cache := cache s |}.

(** One call of the service, the client answering as [cl] during it. *)
Definition serve (s : validatorService) (cl : Client) (tm : timing) (q : query)
    : completion (result answer) * validatorService :=
  match q with
  | QueryReward slot =>
      let out := GetBlockReward (with_client s cl) tm slot in
      (answered AnswerReward out.1, out.2)
  | QueryDuties slot =>
      let out := GetSyncCommitteeDuties (with_client s cl) tm slot in
      (answered AnswerDuties out.1, out.2)
  end.

(** [served s calls s']: the calls, one after the other, take the service
    from [s] to [s']; in each of them the cache fill ranges over the map in
    an order that enumerates it. *)
Inductive served : validatorService → list (Client * timing * query) → validatorService → Prop :=
| served_nil s : served s [] s
| served_cons s cl tm q calls s' :
    (∀ c, cache s = Some c → range_order tm ≡ₚ map_to_list (items c)) →
    served (serve s cl tm q).2 calls s' →
    served s ((cl, tm, q) :: calls) s'.

(** The cache keys of the two queries. *)
Definition reward_key (slot : Z) : string := "block_reward:" +:+ U64.fmt_d slot.
Definition duties_key (slot : Z) : string := "sync_duties:" +:+ U64.fmt_d slot.

(** A service that has served nothing yet: no cache, or a new one. *)
Definition fresh_service (s : validatorService) : Prop :=
  cache s = None ∨ ∃ ttl0 maxSize0, cache s = Some (NewMemoryCache ttl0 maxSize0).

(** [entries_hold Pr Pd s]: in the cache of [s], an entry under the key
    of a reward query holds a block reward that satisfies [Pr] for the
    slot, and an entry under the key of a duties query holds duties that
    satisfy [Pd]. *)
Definition entries_hold (Pr : Z → BlockReward → Prop) (Pd : Z → SyncCommitteeDuties → Prop)
    (s : validatorService) : Prop :=
  ∀ c, cache s = Some c → ∀ slot it,
    (items c !! reward_key slot = Some it →
       ∃ r, value it = CachedBlockReward r ∧ Pr slot r) ∧
    (items c !! duties_key slot = Some it →
       ∃ d, value it = CachedSyncCommitteeDuties d ∧ Pd slot d).

(** [cl] is the [client] of the ethereum package, against some node,
    the current slot read at some time.  On success its [GetBlockBySlot]
    and [GetBlockRewards] return the address of a local ([&block],
    [&resp.Data]), never a nil pointer. *)
Definition repository_client (cl : Client) : Prop :=
  ∃ (w : Node) (now : Time), cl = client w now.

(** The service without a cache: every call goes to the client. *)
Definition uncached (cl : Client) : validatorService :=
  {| ethClient := cl; cache := None |}.

(** The client of the test "successful sync duties". *)
Definition duties_client : Client := {|
  ClientGetBlockBySlot := λ _, Err (Sentinel ErrSlotNotFound);
  ClientGetSyncCommittee := λ _, Ok ["0xvalidator1"; "0xvalidator2"; "0xvalidator3"];
  ClientGetCurrentSlot := Ok 20000;
  ClientGetBlockRewards := λ _, Err (Opaque "not reached");
|}.

(** The service of the handler test "internal error": every call fails
    with an error of no category. *)
Definition failing_service : Api.ValidatorService := {|
  Api.SvcGetBlockReward := λ _, Err (Opaque "database error");
  Api.SvcGetSyncCommitteeDuties := λ _, Err (Opaque "database error");
|}.
End Sessions.

(** * Theory of the cache *)
Module CacheTheory.
Import Cache Statements.

Section facts.
Context {V : Type}.
Implicit Types (c : MemoryCache V) (m : gmap string (cacheItem V)).
Implicit Types (order l : list (string * cacheItem V)) (kv : string * cacheItem V).

Lemma Get_unfold c now key :
  Get c now key =
  (match items c !! key with
   | Some item => if bool_decide (expiration item < now) then None else Some (value item)
   | None => None
   end, c).
Proof.
  unfold Get, After. destruct (items c !! key) as [item|]; [|done].
  by case_bool_decide.
Qed.

Lemma scan_snoc l kv :
  evictOldest_scan (l ++ [kv]) = evictOldest_visit (evictOldest_scan l) kv.
Proof. unfold evictOldest_scan. by rewrite foldl_snoc. Qed.

(** The scan ends on an entry it visited, unless it visited none. *)
Lemma scan_visited l :
  l ≠ [] → ∃ k it, (k, it) ∈ l ∧ evictOldest_scan l = (k, expiration it).
Proof.
  induction l as [|[k it] l IH] using rev_ind; [done|]. intros _.
  destruct (decide (l = [])) as [->|Hne].
  { (* the first visit always takes the entry *)
    exists k, it. split; [apply list_elem_of_singleton; done|done]. }
  rewrite scan_snoc. unfold evictOldest_visit; simpl.
  destruct (IsZero _ || Before _ _).
  - exists k, it. split; [|done]. apply elem_of_app. right. by apply list_elem_of_singleton.
  - destruct (IH Hne) as (k0 & it0 & Hin & Heq).
    exists k0, it0. split; [apply elem_of_app; by left|done].
Qed.

(** Among stamped entries the scan keeps a minimum of the expirations. *)
Lemma scan_minimal l :
  (∀ kv, kv ∈ l → expiration kv.2 ≠ 0) →
  ∀ kv, kv ∈ l → (evictOldest_scan l).2 ≤ expiration kv.2.
Proof.
  induction l as [|[k it] l IH] using rev_ind; [by intros _ kv ?%elem_of_nil|].
  intros Hnz kv Hkv. rewrite scan_snoc.
  assert (Hl : ∀ kv, kv ∈ l → (evictOldest_scan l).2 ≤ expiration kv.2).
  { apply IH. intros ? ?. apply Hnz. apply elem_of_app. by left. }
  unfold evictOldest_visit, IsZero, Before; simpl.
  apply elem_of_app in Hkv as [Hkv | ->%list_elem_of_singleton].
  - (* an earlier entry: the scan has seen it, so its time is not zero *)
    assert (Hne : l ≠ []) by (intros ->; by apply elem_of_nil in Hkv).
    destruct (scan_visited l Hne) as (k0 & it0 & Hin0 & Heq0).
    specialize (Hl _ Hkv). rewrite Heq0 in Hl |- *. simpl in *.
    assert (expiration it0 ≠ 0) by (apply (Hnz (k0, it0)); apply elem_of_app; by left).
    repeat case_bool_decide; simpl; lia.
  - repeat case_bool_decide; simpl; lia.
Qed.

(** What [evictOldest] does to a map it ranges over in full. *)
Lemma evictOldest_spec order m :
  order ≡ₚ map_to_list m →
  m ≠ ∅ →
  ∃ k it, m !! k = Some it ∧
    (evictOldest_scan order).1 = k ∧
    (stamped m → earliest m it).
Proof.
  intros Hperm Hne.
  assert (Hl : order ≠ []).
  { intros ->. apply Permutation_nil_l in Hperm. symmetry in Hperm.
    by apply map_to_list_empty_iff in Hperm. }
  destruct (scan_visited order Hl) as (k & it & Hin & Heq).
  exists k, it. rewrite Heq. split_and!; [|done|].
  - apply elem_of_map_to_list. by rewrite <-Hperm.
  - intros Hst k' it' Hk'.
    assert (Hin' : (k', it') ∈ order).
    { rewrite Hperm. by apply elem_of_map_to_list. }
    pose proof (scan_minimal order) as Hmin.
    rewrite Heq in Hmin. apply (Hmin) in Hin'; [done|].
    intros [k1 it1] H1. simpl. apply (Hst k1).
    apply elem_of_map_to_list. by rewrite <-Hperm.
Qed.

Lemma evictOldest_empty order :
  order ≡ₚ map_to_list (∅ : gmap string (cacheItem V)) → evictOldest order ∅ = ∅.
Proof.
  rewrite map_to_list_empty. intros ->%Permutation_nil_r. done.
Qed.

(** A step never changes [ttl], [maxSize] or the stop channel. *)
Lemma step_config c now cl c' :
  step c now cl c' → ttl c' = ttl c ∧ maxSize c' = maxSize c ∧ stopChan c' = stopChan c.
Proof.
  destruct 1; try done. rewrite Get_unfold. done.
Qed.

(** One step keeps the map within [maxSize], when [maxSize] is positive
    and the empty string is never used as a key. *)
Lemma step_capacity c now cl c' :
  step c now cl c' →
  1 ≤ maxSize c →
  (∀ k v, cl = CallSet k v → k ≠ "") →
  Z.of_nat (size (items c)) ≤ maxSize c ∧ items c !! "" = None →
  Z.of_nat (size (items c')) ≤ maxSize c' ∧ items c' !! "" = None.
Proof.
  intros Hstep Hpos Hkey [Hsize Hnokey].
  destruct Hstep as [key|key v order Hperm|key| |]; simpl.
  - by rewrite Get_unfold.
  - assert (key ≠ "") as Hk by eauto.
    rewrite lookup_insert_ne by done.
    case_bool_decide as Hfull.
    + assert (Hne : items c ≠ ∅).
      { intros Hm. rewrite Hm, map_size_empty in Hfull. lia. }
      destruct (evictOldest_spec order (items c) Hperm Hne) as (k & it & Hk' & Hscan & _).
      unfold evictOldest. rewrite Hscan.
      assert (k ≠ "") by (intros ->; congruence).
      rewrite bool_decide_eq_true_2 by done.
      split; [|by rewrite lookup_delete_ne].
      pose proof (map_size_insert key {| value := v; expiration := Add now (ttl c) |}
                    (delete k (items c))) as Hins.
      pose proof (map_size_delete_Some k (items c) (mk_is_Some _ _ Hk')) as Hdel.
      assert (size (items c) ≠ 0%nat) by (by apply map_size_non_empty_iff).
      destruct (delete k (items c) !! key); simpl in Hins; lia.
    + split; [|done].
      pose proof (map_size_insert key {| value := v; expiration := Add now (ttl c) |}
                    (items c)) as Hins.
      destruct (items c !! key); simpl in Hins; lia.
  - split; [|rewrite lookup_delete; by case_decide].
    pose proof (map_size_delete key (items c)) as Hdel.
    destruct (items c !! key); simpl in Hdel; lia.
  - rewrite map_size_empty. split; [lia|done].
  - split.
    + pose proof (map_subseteq_size _ _
        (map_filter_subseteq (λ kv, ¬ expiration kv.2 < now) (items c))). lia.
    + apply map_lookup_filter_None. by left.
Qed.

Lemma stamped_map_to_list m :
  Forall (λ kv, expiration kv.2 ≠ 0) (map_to_list m) → stamped m.
Proof.
  intros Hall k it Hk. rewrite Forall_forall in Hall.
  apply (Hall (k, it)). by apply elem_of_map_to_list.
Qed.

(** A trace from a new cache never changes the configuration. *)
Lemma steps_config c tr c' :
  steps c tr c' → ttl c' = ttl c ∧ maxSize c' = maxSize c ∧ stopChan c' = stopChan c.
Proof.
  induction 1 as [|c now cl c1 tr c2 Hstep _ IH]; [done|].
  destruct (step_config _ _ _ _ Hstep) as (H1 & H2 & H3).
  rewrite <-H1, <-H2, <-H3. exact IH.
Qed.

Lemma steps_capacity c tr c' :
  steps c tr c' →
  1 ≤ maxSize c →
  Forall (λ k, k ≠ "") (set_keys tr) →
  Z.of_nat (size (items c)) ≤ maxSize c ∧ items c !! "" = None →
  Z.of_nat (size (items c')) ≤ maxSize c' ∧ items c' !! "" = None.
Proof.
  induction 1 as [|c now cl c1 tr c2 Hstep _ IH]; [done|].
  intros Hpos Hkeys Hinv.
  destruct (step_config _ _ _ _ Hstep) as (_ & Hmax & _).
  apply IH.
  - by rewrite Hmax.
  - destruct cl; simpl in Hkeys; try done. by apply Forall_cons in Hkeys as [_ ?].
  - apply (step_capacity c now cl); [done..| |done].
    intros k v ->. simpl in Hkeys. by apply Forall_cons in Hkeys as [? _].
Qed.

(** With room for one entry, ["a"] then ["b"]: what the second [Set]
    leaves, whatever the times and the orders. *)
Lemma Set_a_then_b (ttl0 : Duration) (v w : V) (t1 t2 : Time) o1 o2 :
  let c1 := Set_ o1 (NewMemoryCache ttl0 1) t1 "a" v in
  o1 ≡ₚ map_to_list (items (NewMemoryCache (V:=V) ttl0 1)) →
  o2 ≡ₚ map_to_list (items c1) →
  items (Set_ o2 c1 t2 "b" w) = {[ "b" := {| value := w; expiration := t2 + ttl0 |} ]}.
Proof.
  intros c1 Ho1 Ho2.
  assert (Hc1 : items c1 = {[ "a" := {| value := v; expiration := t1 + ttl0 |} ]}).
  { subst c1. unfold Set_; simpl. rewrite map_size_empty. simpl. done. }
  rewrite Hc1, map_to_list_singleton in Ho2. apply Permutation_singleton_r in Ho2 as ->.
  unfold Set_. rewrite Hc1, map_size_singleton. simpl.
  unfold evictOldest. simpl. rewrite delete_singleton_eq. done.
Qed.
(** The reaper changes nothing that a later [Get] can see. *)
Lemma Get_after_sweep c (t now : Time) (key : string) :
  t ≤ now → (Get (removeExpired c t) now key).1 = (Get c now key).1.
Proof.
  intros Ht. rewrite !Get_unfold. simpl.
  destruct (items c !! key) as [item|] eqn:Hk.
  - destruct (decide (expiration item < t)) as [Hold|Hnew].
    + rewrite (proj2 (map_lookup_filter_None _ _ _)).
      * by rewrite bool_decide_eq_true_2 by lia.
      * right. intros it' Hit'. simpl. rewrite Hk in Hit'. injection Hit' as <-. lia.
    + rewrite (map_lookup_filter_Some_2 _ _ _ item); done.
  - rewrite (proj2 (map_lookup_filter_None _ _ _)); [done|by left].
Qed.

End facts.

(** *** The claims about the cache *)

(** C1, as the code has it: [Get] reports a key as not found exactly when
    the key is absent from the map or the clock is strictly after the
    entry's expiration; an entry is returned, with its own value, exactly
    while [now ≤ expiresAt]; and a sweep of the reaper at any earlier time
    changes nothing in what [Get] returns. *)
Theorem Get_found_iff {V} (c : MemoryCache V) (now : Time) (key : string) :
  (found (Get c now key) = false ↔
     items c !! key = None ∨
     ∃ item, items c !! key = Some item ∧ expiration item < now) ∧
  (∀ v, (Get c now key).1 = Some v ↔
     ∃ item, items c !! key = Some item ∧ value item = v ∧ now ≤ expiration item) ∧
  (∀ t, t ≤ now → (Get (removeExpired c t) now key).1 = (Get c now key).1).
Proof.
  cut ((found (Get c now key) = false ↔
          items c !! key = None ∨
          ∃ item, items c !! key = Some item ∧ expiration item < now) ∧
       (∀ v, (Get c now key).1 = Some v ↔
          ∃ item, items c !! key = Some item ∧ value item = v ∧ now ≤ expiration item)).
  { intros [? ?]. split_and!; [done..|]. intros t Ht. by apply Get_after_sweep. }
  unfold found. rewrite Get_unfold. simpl.
  destruct (items c !! key) as [item|] eqn:Hk.
  - case_bool_decide as Hexp; split.
    + split; [intros _; right; eauto|done].
    + intros v. split; [done|]. intros (it & [= <-] & _ & ?). lia.
    + split; [done|]. intros [[=]|(it & [= <-] & ?)]. done.
    + intros v. split.
      * intros [= <-]. exists item. split_and!; [done..|lia].
      * by intros (it & [= <-] & <- & _).
  - split.
    + split; [by left|done].
    + intros v. split; [done|]. by intros (? & [=] & _).
Qed.

Lemma Get_found_iff_witness :
  (Get (removeExpired full_cache 150) 200 "a").1 = (Get full_cache 200 "a").1.
Proof.
  apply (proj2 (proj2 (Get_found_iff full_cache 200 "a")) 150). lia.
Defined.

(** C1 as stated fails at the instant of expiry: an entry written at
    time 0 with a TTL of 100 is still returned at time 100. *)
Lemma Get_at_expiry_still_found :
  let c := Set_ [] (NewMemoryCache 100 10) 0 "k" 7 in
  ∃ item, items c !! "k" = Some item ∧ expiration item ≤ 100 ∧
          found (Get c 100 "k") = true.
Proof.
  simpl. eexists. split; [by vm_compute|]. split; [by vm_compute|]. by vm_compute.
Qed.

(** C2, as the code has it: [Set] runs the eviction scan exactly when the
    map already holds [maxSize] entries or more, whether the key is new or
    already present.  With fewer entries nothing is evicted.  Otherwise
    exactly one entry is removed before the insert, one with the earliest
    expiration among all entries (when the map is empty there is nothing to
    remove).  With [maxSize = 1], setting ["a"] and then ["b"] leaves only
    ["b"] in the map, and ["b"] is returned until its expiration.  Stated
    for maps whose expirations are not the zero time and that do not use
    the empty string as a key. *)
Theorem Set_evicts_earliest_when_full {V} :
  (∀ (c : MemoryCache V) now key v order,
     order ≡ₚ map_to_list (items c) →
     stamped (items c) →
     items c !! "" = None →
     let new := {| value := v; expiration := now + ttl c |} in
     let m' := items (Set_ order c now key v) in
     (Z.of_nat (size (items c)) < maxSize c → m' = <[key := new]> (items c)) ∧
     (maxSize c ≤ Z.of_nat (size (items c)) → items c = ∅ → m' = {[ key := new ]}) ∧
     (maxSize c ≤ Z.of_nat (size (items c)) → items c ≠ ∅ →
        ∃ k it, items c !! k = Some it ∧ earliest (items c) it ∧
                m' = <[key := new]> (delete k (items c)))) ∧
  (∀ (ttl0 : Duration) (v w : V) (t1 t2 now : Time) o1 o2,
     let c1 := Set_ o1 (NewMemoryCache ttl0 1) t1 "a" v in
     let c2 := Set_ o2 c1 t2 "b" w in
     o1 ≡ₚ map_to_list (items (NewMemoryCache (V:=V) ttl0 1)) →
     o2 ≡ₚ map_to_list (items c1) →
     dom (items c2) = {[ "b" ]} ∧
     (Get c2 now "a").1 = None ∧
     (now ≤ t2 + ttl0 → (Get c2 now "b").1 = Some w)).
Proof.
  split.
  - intros c now key v order Hperm Hst Hnokey new m'. subst new m'.
    unfold Set_, Add; simpl. split_and!.
    + intros Hlt. by rewrite bool_decide_eq_false_2 by lia.
    + intros Hge Hempty. rewrite bool_decide_eq_true_2 by done.
      rewrite Hempty in Hperm |- *. by rewrite evictOldest_empty.
    + intros Hge Hne. rewrite bool_decide_eq_true_2 by done.
      destruct (evictOldest_spec order (items c) Hperm Hne) as (k & it & Hk & Hscan & Hmin).
      exists k, it. split_and!; [done|by apply Hmin|].
      unfold evictOldest. rewrite Hscan.
      rewrite bool_decide_eq_true_2; [done|].
      intros ->. congruence.
  - intros ttl0 v w t1 t2 now o1 o2 c1 c2 Ho1 Ho2.
    assert (Hc2 : items c2 = {[ "b" := {| value := w; expiration := t2 + ttl0 |} ]}).
    { by apply Set_a_then_b. }
    rewrite !Get_unfold. cbn [fst]. rewrite Hc2. split_and!.
    + by rewrite dom_singleton_L.
    + done.
    + intros Hnow. rewrite lookup_singleton_eq. simpl.
      by rewrite bool_decide_eq_false_2 by lia.
Qed.

(** The general part of C2 at a cache that is full with ["a"] and ["b"]. *)
Lemma Set_evicts_earliest_when_full_witness :
  ∃ k it, items full_cache !! k = Some it ∧ earliest (items full_cache) it ∧
    items (Set_ (map_to_list (items full_cache)) full_cache 3 "c" 33) =
    <["c" := {| value := 33; expiration := 3 + ttl full_cache |}]> (delete k (items full_cache)).
Proof.
  refine (proj2 (proj2 (proj1 Set_evicts_earliest_when_full full_cache 3 "c" 33
                   (map_to_list (items full_cache)) _ _ _)) _ _).
  - reflexivity.
  - apply stamped_map_to_list. vm_compute. repeat constructor; discriminate.
  - by vm_compute.
  - by vm_compute.
  - by vm_compute.
Defined.

(** C2 as stated fails on an overwrite: in a cache that is full with
    ["a"] and ["b"], setting ["b"] again evicts ["a"]. *)
Lemma Set_overwrite_evicts_other :
  let c3 := Set_ (map_to_list (items full_cache)) full_cache 3 "b" 33 in
  maxSize full_cache = 2 ∧
  items full_cache !! "a" = Some {| value := 11; expiration := 101 |} ∧
  items full_cache !! "b" = Some {| value := 22; expiration := 102 |} ∧
  items c3 !! "a" = None.
Proof. simpl. split_and!; by vm_compute. Qed.

(** C3, as the code has it: for every [maxSize ≥ 1] and every sequence of
    calls ([Get], [Set], [Delete], [Clear] and reaper sweeps, at any times,
    [Set] ranging over the map in any order) on a new cache, none of the
    [Set] calls using the empty string as its key, the map holds at most
    [maxSize] entries after each call. *)
Theorem capacity_invariant {V} (ttl0 : Duration) (maxSize0 : Z)
    (tr : list (Time * call V)) (c' : MemoryCache V) :
  1 ≤ maxSize0 →
  Forall (λ k, k ≠ "") (set_keys tr) →
  steps (NewMemoryCache ttl0 maxSize0) tr c' →
  Z.of_nat (size (items c')) ≤ maxSize0.
Proof.
  intros Hpos Hkeys Hsteps.
  pose proof (steps_config _ _ _ Hsteps) as (_ & Hmax & _). simpl in Hmax.
  rewrite <-Hmax.
  eapply (steps_capacity _ _ _ Hsteps); [done|done|].
  simpl. rewrite map_size_empty. split; [lia|done].
Qed.

Lemma capacity_invariant_witness :
  Z.of_nat (size (items (Set_ (map_to_list (items full_cache)) full_cache 3 "c" 33))) ≤ 2.
Proof.
  apply (capacity_invariant 100 2
           [(1, CallSet "a" 11); (2, CallSet "b" 22); (3, CallSet "c" 33)]).
  - lia.
  - simpl. repeat constructor; discriminate.
  - eapply steps_cons; [eapply step_set; reflexivity|].
    eapply steps_cons; [eapply step_set; reflexivity|].
    eapply steps_cons; [eapply step_set; reflexivity|].
    apply steps_nil.
Defined.

(** C3 as stated fails for [maxSize = 0]: the first [Set] finds nothing
    to evict and inserts. *)
Lemma capacity_zero_exceeded :
  let c := NewMemoryCache (V:=Z) 100 0 in
  let c' := Set_ (map_to_list (items c)) c 1 "a" 11 in
  0 ≤ maxSize c ∧ steps c [(1, CallSet "a" 11)] c' ∧
  ¬ Z.of_nat (size (items c')) ≤ maxSize c'.
Proof.
  simpl. split_and!.
  - lia.
  - eapply steps_cons; [eapply step_set; reflexivity|]. apply steps_nil.
  - by vm_compute.
Qed.

(** C8, as the code has it: [Close] on a cache whose stop channel is open
    closes the channel and returns, leaving the rest of the cache as it
    was; [Close] on a cache whose stop channel is closed panics.  So the
    first [Close] of a new cache signals the stop once and a second one on
    the same cache panics. *)
Theorem Close_once_then_panics {V} (c : MemoryCache V) :
  match Close c with
  | Returns c1 =>
      stopChan c = ChanOpen ∧ stopChan c1 = ChanClosed ∧
      items c1 = items c ∧ ttl c1 = ttl c ∧ maxSize c1 = maxSize c ∧
      ∃ msg, Close c1 = Panics msg
  | Panics _ => stopChan c = ChanClosed
  end.
Proof.
  unfold Close. destruct (stopChan c) eqn:Hch; simpl; [|done].
  split_and!; try done. by eexists.
Qed.

(** C8 as stated fails: the second [Close] of a new cache panics. *)
Lemma Close_twice_panics :
  ∃ c1, Close (NewMemoryCache (V:=Z) 100 10) = Returns c1 ∧
        Close c1 = Panics "close of closed channel".
Proof. eexists. split; reflexivity. Qed.

(** C10: [Get] returns the cache it was given, map, TTL, capacity and
    stop channel alike; an entry past its expiration is reported as not
    found and is still in the map after the call; and a call that does
    change an entry of the map is not a [Get]. *)
Theorem Get_frame {V} (c : MemoryCache V) (now : Time) (key : string) :
  (Get c now key).2 = c ∧
  (∀ item, items c !! key = Some item → expiration item < now →
     (Get c now key).1 = None ∧ items (Get c now key).2 !! key = Some item) ∧
  (∀ cl c' k, step c now cl c' → items c' !! k ≠ items c !! k →
     ∀ key', cl ≠ CallGet key').
Proof.
  rewrite Get_unfold. simpl. split_and!; [done| |].
  - intros item Hk Hexp. rewrite Hk. by rewrite bool_decide_eq_true_2.
  - intros cl c' k Hstep Hchg key' ->. inversion Hstep; subst.
    apply Hchg. by rewrite Get_unfold.
Qed.

Lemma Get_frame_witness :
  (Get full_cache 500 "a").1 = None ∧
  items (Get full_cache 500 "a").2 !! "a" = Some {| value := 11; expiration := 101 |}.
Proof.
  apply (proj1 (proj2 (Get_frame full_cache 500 "a"))).
  - by vm_compute.
  - by vm_compute.
Defined.

(** The scan of [evictOldest] stands on the empty string both when it
    has seen nothing and when the entry it chose is stored under the empty
    string: that entry is then not removed, and the map outgrows
    [maxSize]. *)
Lemma empty_key_escapes_eviction :
  let c0 := NewMemoryCache (V:=Z) 100 1 in
  let c1 := Set_ (map_to_list (items c0)) c0 1 "" 11 in
  let c2 := Set_ (map_to_list (items c1)) c1 2 "b" 22 in
  steps c0 [(1, CallSet "" 11); (2, CallSet "b" 22)] c2 ∧
  size (items c2) = 2%nat ∧ maxSize c2 = 1.
Proof.
  simpl. split_and!; [|by vm_compute..].
  eapply steps_cons; [eapply step_set; reflexivity|].
  eapply steps_cons; [eapply step_set; reflexivity|].
  apply steps_nil.
Qed.
End CacheTheory.

(** * Theory of the client arithmetic and of the service *)
Module ServiceTheory.
Import Service Statements.

(** *** Period arithmetic *)

Lemma stateID_exact (slot : Z) :
  U64.in_range slot → GetSyncCommittee_stateID slot = slot / 32 / 256 * 256 * 32.
Proof.
  unfold U64.in_range, GetSyncCommittee_stateID, U64.mul, U64.div, U64.wrap, U64.modulus.
  intros Hs.
  assert (0 ≤ slot / 32 / 256) by (apply Z.div_pos; [apply Z.div_pos|]; lia).
  assert (slot / 32 / 256 * 256 ≤ slot / 32).
  { pose proof (Z.mul_div_le (slot / 32) 256). lia. }
  assert (slot / 32 * 32 ≤ slot).
  { pose proof (Z.mul_div_le slot 32). lia. }
  rewrite (Z.mod_small (_ * 256)) by lia.
  rewrite Z.mod_small by lia. done.
Qed.

(** *** Classification *)

Lemma prefix_length (p s : string) :
  String.prefix p s = true → (String.length p ≤ String.length s)%nat.
Proof.
  revert s. induction p as [|c p IH]; intros [|d s]; simpl; try (done || lia).
  destruct (ascii_dec c d); [|done]. intros ?%IH. lia.
Qed.

Lemma HasPrefix_selector (tx p : string) :
  String.length p = 10%nat → (HasPrefix tx p = true ↔ selector tx = p).
Proof.
  intros Hlen. unfold HasPrefix, selector. rewrite <-Hlen. apply String.prefix_correct.
Qed.

Lemma isMEVTransaction_selector (tx : string) :
  isMEVTransaction tx = true ↔ selector tx ∈ mevPatterns.
Proof.
  unfold isMEVTransaction, mevPatterns.
  rewrite !elem_of_cons, elem_of_nil.
  rewrite <-!(HasPrefix_selector tx) by reflexivity.
  destruct (String.length tx <? 10)%nat eqn:Hshort.
  - apply Nat.ltb_lt in Hshort.
    split; [done|]. unfold HasPrefix.
    intros [H|[H|[H|[]]]]; apply prefix_length in H; simpl in H; lia.
  - cbn [existsb]. rewrite !orb_true_iff. intuition done.
Qed.

Lemma relay_match (fee : string) :
  existsb (λ relay, bool_decide (ToLower fee = relay)) knownMEVRelays = true ↔
  ∃ relay, relay ∈ knownMEVRelays ∧ EqualFold fee relay.
Proof.
  rewrite existsb_exists. unfold EqualFold. split.
  - intros (relay & Hin & Heq). apply bool_decide_eq_true in Heq.
    exists relay. split; [by apply list_elem_of_In|].
    rewrite Heq. unfold knownMEVRelays in Hin. simpl in Hin.
    destruct Hin as [<-|[<-|[<-|[]]]]; by vm_compute.
  - intros (relay & Hin & Heq). exists relay. split; [by apply list_elem_of_In|].
    apply bool_decide_eq_true. rewrite Heq.
    unfold knownMEVRelays in Hin. rewrite !elem_of_cons, elem_of_nil in Hin.
    destruct Hin as [->|[->|[->|[]]]]; by vm_compute.
Qed.

(** C5: the classification of a block.  ["vanilla"] without an execution
    payload or with an empty transaction list; otherwise ["mev"] when some
    transaction's selector is one of the three patterns, else ["mev"] when
    the fee recipient is, up to case, one of the relay addresses, else
    ["vanilla"]; never anything but these two strings. *)
Theorem determineBlockStatus_classifies (block : BeaconBlock) :
  let status := determineBlockStatus block in
  (status = "mev" ∨ status = "vanilla") ∧
  match BodyExecutionPayload (Body (Message (Data block))) with
  | None => status = "vanilla"
  | Some payload =>
      let mev_tx := ∃ tx, tx ∈ Transactions payload ∧ selector tx ∈ mevPatterns in
      let mev_relay :=
        ∃ relay, relay ∈ knownMEVRelays ∧ EqualFold (FeeRecipient payload) relay in
      (Transactions payload = [] → status = "vanilla") ∧
      (Transactions payload ≠ [] → mev_tx → status = "mev") ∧
      (Transactions payload ≠ [] → ¬ mev_tx → mev_relay → status = "mev") ∧
      (Transactions payload ≠ [] → ¬ mev_tx → ¬ mev_relay → status = "vanilla")
  end ∧
  mevPatterns = ["0xa22cb465"; "0x095ea7b3"; "0x23b872dd"] ∧
  "0x95222290dd7278aa3ddd389cc1e1d165cc4bafe5" ∈ knownMEVRelays.
Proof.
  intros status. subst status. unfold determineBlockStatus.
  split_and!; [| |done|by left].
  - destruct (BodyExecutionPayload _) as [payload|]; [|by right].
    repeat case_match; auto.
  - destruct (BodyExecutionPayload _) as [payload|]; [|done].
    cbv zeta.
    set (mev_tx := ∃ tx, tx ∈ Transactions payload ∧ selector tx ∈ mevPatterns).
    set (mev_relay := ∃ relay, relay ∈ knownMEVRelays ∧ EqualFold (FeeRecipient payload) relay).
    assert (Htx : existsb isMEVTransaction (Transactions payload) = true ↔ mev_tx).
    { rewrite existsb_exists. subst mev_tx. split.
      - intros (tx & Hin & Hmev). exists tx. split; [by apply list_elem_of_In|].
        by apply isMEVTransaction_selector.
      - intros (tx & Hin & Hsel). exists tx. split; [by apply list_elem_of_In|].
        by apply isMEVTransaction_selector. }
    pose proof (relay_match (FeeRecipient payload)) as Hrelay.
    destruct (Transactions payload) as [|tx0 txs] eqn:Htxs.
    { split_and!; done. }
    cbn [List.length Nat.eqb].
    destruct (existsb isMEVTransaction (tx0 :: txs)) eqn:Hscan.
    { split_and!; [done|done| |].
      - intros _ Hno. destruct Hno. by apply Htx.
      - intros _ Hno. destruct Hno. by apply Htx. }
    destruct (existsb _ knownMEVRelays) eqn:Hfee.
    + split_and!; [done| |done|].
      * intros _ Hyes. apply Htx in Hyes. done.
      * intros _ _ Hno. destruct Hno. by apply Hrelay.
    + split_and!; [done| | |done].
      * intros _ Hyes. apply Htx in Hyes. done.
      * intros _ _ Hyes. apply Hrelay in Hyes. done.
Qed.

Lemma determineBlockStatus_classifies_witness :
  determineBlockStatus
    (block_with "0X95222290DD7278AA3DDD389CC1E1D165CC4BAFE5" ["0xdeadbeef00"]) = "mev".
Proof.
  pose proof (determineBlockStatus_classifies
                (block_with "0X95222290DD7278AA3DDD389CC1E1D165CC4BAFE5" ["0xdeadbeef00"]))
    as (_ & (_ & _ & Hrelay & _) & _).
  apply Hrelay.
  - discriminate.
  - intros (tx & Htx & Hsel). apply list_elem_of_singleton in Htx as ->.
    vm_compute in Hsel. repeat (apply elem_of_cons in Hsel as [Hsel|Hsel]; [discriminate|]).
    by apply elem_of_nil in Hsel.
  - exists "0x95222290dd7278aa3ddd389cc1e1d165cc4bafe5". split; [by left|reflexivity].
Defined.

(** The three classifications the specification lists. *)
Example classify_selector :
  determineBlockStatus (block_with "0x1234567890abcdef" ["0xa22cb465..."]) = "mev".
Proof. reflexivity. Qed.

Example classify_no_transactions :
  determineBlockStatus (block_with "0x1234567890abcdef" []) = "vanilla".
Proof. reflexivity. Qed.

Example classify_relay_any_case :
  determineBlockStatus
    (block_with "0X95222290DD7278AA3DDD389CC1E1D165CC4BAFE5" ["0xdeadbeef00"]) = "mev".
Proof. reflexivity. Qed.

(** *** Reward parsing *)

Lemma digit_value_is_digit (c : ascii) :
  digit_value c = if is_digit c then Some (Z.of_nat (nat_of_ascii c) - 48) else None.
Proof. reflexivity. Qed.

Lemma scan_digits_spec (s : string) (acc : Z) :
  scan_digits s acc =
  if all_digits s then Some (acc * 10 ^ Z.of_nat (String.length s) + decimal_value s)
  else None.
Proof.
  revert acc. induction s as [|c s IH]; intros acc.
  - simpl. f_equal. lia.
  - cbn [scan_digits all_digits decimal_value String.length].
    rewrite digit_value_is_digit. destruct (is_digit c); [|done].
    rewrite IH. simpl andb. destruct (all_digits s); [|done].
    f_equal. rewrite Nat2Z.inj_succ, Z.pow_succ_r by lia. lia.
Qed.

Lemma scan_abs_spec (s : string) :
  scan_abs s = if decide (nonneg_decimal s) then Some (decimal_value s) else None.
Proof.
  unfold scan_abs, nonneg_decimal. destruct s as [|c s].
  - rewrite decide_False; [done|]. by intros [? _].
  - rewrite scan_digits_spec. destruct (all_digits (String c s)) eqn:Hd.
    + rewrite decide_True by done. done.
    + rewrite decide_False; [done|]. intros [_ ?]. congruence.
Qed.

Lemma decimal_value_nonneg (s : string) : all_digits s = true → 0 ≤ decimal_value s.
Proof.
  induction s as [|c s IH]; simpl; [done|].
  intros [Hc Hs]%andb_true_iff. specialize (IH Hs).
  unfold is_digit in Hc. apply andb_true_iff in Hc as [H1%Nat.leb_le H2%Nat.leb_le].
  assert (0 ≤ 10 ^ Z.of_nat (String.length s)) by (apply Z.pow_nonneg; lia).
  nia.
Qed.

Lemma SetString10_cons (c : ascii) (rest : string) :
  SetString10 (String c rest) =
  if decide (c = "+"%char) then scan_abs rest
  else if decide (c = "-"%char) then Z.opp <$> scan_abs rest
  else scan_abs (String c rest).
Proof.
  destruct c as [[] [] [] [] [] [] [] []]; reflexivity.
Qed.

Lemma SetString10_spec (s : string) (n : Z) :
  SetString10 s = Some n ↔ signed_decimal s n.
Proof.
  destruct s as [|c rest].
  { split; [done|]. inversion 1 as [? [? _]|? ?|? ?]; done. }
  rewrite SetString10_cons.
  destruct (decide (c = "+"%char)) as [->|Hplus];
    [|destruct (decide (c = "-"%char)) as [->|Hminus]].
  - rewrite scan_abs_spec. split.
    + case_decide; [|done]. intros [= <-]. by constructor.
    + inversion 1 as [? [_ Hd]|? Hb|]; subst.
      * by vm_compute in Hd.
      * by rewrite decide_True.
  - rewrite scan_abs_spec. split.
    + case_decide; [|done]. intros [= <-]. by constructor.
    + inversion 1 as [? [_ Hd]| |? Hb]; subst.
      * by vm_compute in Hd.
      * by rewrite decide_True.
  - rewrite scan_abs_spec. split.
    + case_decide; [|done]. intros [= <-]. by constructor.
    + inversion 1 as [? Hb| |]; subst; [|done..].
      by rewrite decide_True.
Qed.

(** C6, as the code has it: [parseReward] succeeds exactly on the strings
    made of an optional sign, [+] or [-], and one or more decimal digits,
    and returns the integer they denote, negative after [-], with no loss
    of precision; on every other string it fails with the error
    [invalid reward format], which the service wraps and the handler
    answers as an internal error.  In particular every string of one or
    more digits parses to its non-negative value. *)
Theorem parseReward_signed_decimal (s : string) :
  (∀ n, parseReward s = Ok n ↔ signed_decimal s n) ∧
  ((∃ n, parseReward s = Ok n) ∨
   parseReward s = Err (Opaque ("invalid reward format: " +:+ s)) ∧
   Handlers.handleServiceError
     (Wrapf "failed to parse reward" (Opaque ("invalid reward format: " +:+ s)))
   = Handlers.StatusInternalServerError) ∧
  (nonneg_decimal s → parseReward s = Ok (decimal_value s) ∧ 0 ≤ decimal_value s) ∧
  parseReward "1000000000000000000" = Ok 1000000000000000000.
Proof.
  unfold parseReward. split_and!.
  - intros n. rewrite <-SetString10_spec.
    destruct (SetString10 s); split; congruence.
  - destruct (SetString10 s); [left; eauto|right; done].
  - intros Hs.
    assert (Hsd : SetString10 s = Some (decimal_value s)).
    { apply SetString10_spec. by constructor. }
    rewrite Hsd. split; [done|]. apply decimal_value_nonneg, Hs.
  - reflexivity.
Qed.

Lemma parseReward_signed_decimal_witness :
  parseReward "500000000000000000" = Ok 500000000000000000 ∧ 0 ≤ 500000000000000000.
Proof.
  apply (proj1 (proj2 (proj2 (parseReward_signed_decimal "500000000000000000")))).
  split; [discriminate|reflexivity].
Defined.

(** C6 as stated fails on a signed string: ["-5"] is no non-negative
    base-10 integer, and it parses, to a negative reward. *)
Lemma parseReward_accepts_negative :
  parseReward "-5" = Ok (-5) ∧ ¬ nonneg_decimal "-5".
Proof. split; [reflexivity|]. intros [_ Hd]. by vm_compute in Hd. Qed.

(** *** Errors of the client and of the service *)

Lemma Is_unique (e : error) (t1 t2 : sentinel) :
  Is e t1 = true → Is e t2 = true → t1 = t2.
Proof.
  induction e as [s0| |msg cause IH|f v e IH|]; simpl; try done; eauto.
  intros <-%bool_decide_eq_true <-%bool_decide_eq_true. done.
Qed.

Lemma not_found_category (e : error) :
  IsNotFound e = true →
  IsBadRequest e = false ∧ IsTimeout e = false ∧
  Handlers.handleServiceError e = Handlers.StatusNotFound.
Proof.
  intros Hnf. unfold Handlers.handleServiceError. rewrite Hnf.
  unfold IsBadRequest, IsTimeout, IsNotFound in *.
  assert (Hother : ∀ t, t ≠ ErrSlotNotFound → Is e t = false).
  { intros t Ht. destruct (Is e t) eqn:Hit; [|done].
    destruct Ht. by apply (Is_unique e). }
  rewrite !Hother by done. done.
Qed.

(** The client reports "not found" for an HTTP 404 and for nothing else,
    and no other sentinel ever. *)
Lemma doBeaconRequest_errors {A} (r : reply A) (e : error) :
  doBeaconRequest r = Err e →
  (IsNotFound e = true ↔ ∃ d, r = Answered 404 d) ∧
  (∀ t, Is e t = true → t = ErrSlotNotFound).
Proof.
  unfold doBeaconRequest, IsNotFound.
  destruct r as [cause|cause|code decoded].
  - intros [= <-]. simpl. split; [|done]. split; [done|]. by intros [? ?].
  - intros [= <-]. simpl. split; [|done]. split; [done|]. by intros [? ?].
  - case_bool_decide as H404; [subst code|].
    { intros [= <-]. simpl. split; [split; [by eauto|done]|].
      by intros t <-%bool_decide_eq_true. }
    assert (Hno : ¬ ∃ d, Answered (A:=A) code decoded = Answered 404 d).
    { intros [d [=]]. done. }
    case_bool_decide.
    { intros [= <-]. simpl. split; [|done]. split; [done|]. by intros ?%Hno. }
    destruct decoded; [|done].
    intros [= <-]. simpl. split; [|done]. split; [done|]. by intros ?%Hno.
Qed.

(** The slot computed by [GetCurrentSlot] is at most a twelfth of the
    64-bit range. *)
Lemma GetCurrentSlot_range (w : Node) (now : Time) (C : Z) :
  GetCurrentSlot w now = Ok C → 0 ≤ C ≤ (2 ^ 64 - 1) / 12.
Proof.
  unfold GetCurrentSlot.
  destruct (doBeaconRequest _) as [genesis|]; [|done].
  destruct (parseUint64 _ _) as [genesisTime|]; [|done].
  case_bool_decide; [done|]. intros [= <-].
  unfold U64.div, U64.sub, U64.wrap, U64.modulus.
  pose proof (Z.mod_pos_bound (Unix now mod 2 ^ 64 - genesisTime) (2 ^ 64) ltac:(lia)).
  split; [apply Z.div_pos; lia|apply Z.div_le_mono; lia].
Qed.

Lemma with_cache_id (s : validatorService) : with_cache s (cache s) = s.
Proof. by destruct s. Qed.

Lemma cache_get_state (s : validatorService) (t : Time) (k : string) :
  (cache_get s t k).2 = s.
Proof.
  unfold cache_get. destruct (cache s) as [c|] eqn:Hc; [|done].
  simpl. rewrite CacheTheory.Get_unfold. simpl. rewrite <-Hc. apply with_cache_id.
Qed.

Lemma GetBlockReward_miss (s : validatorService) (tm : timing) (slot : Z) :
  (cache_get s (t_lookup tm) ("block_reward:" +:+ U64.fmt_d slot)).1 = None →
  GetBlockReward s tm slot =
  match ClientGetCurrentSlot (ethClient s) with
  | Err err => (Returns (Err (Wrapf "failed to get current slot" err)), s)
  | Ok currentSlot =>
      if bool_decide (currentSlot < slot)
      then (Returns (Err (Sentinel ErrFutureSlot)), s)
      else GetBlockReward_fetch s tm slot
  end.
Proof.
  intros Hmiss. unfold GetBlockReward.
  pose proof (cache_get_state s (t_lookup tm) ("block_reward:" +:+ U64.fmt_d slot)) as Hst.
  destruct (cache_get _ _ _) as [o s']. simpl in *. by subst.
Qed.

Lemma GetSyncCommitteeDuties_miss (s : validatorService) (tm : timing) (slot : Z) :
  (cache_get s (t_lookup tm) ("sync_duties:" +:+ U64.fmt_d slot)).1 = None →
  GetSyncCommitteeDuties s tm slot =
  match ClientGetCurrentSlot (ethClient s) with
  | Err err => (Returns (Err (Wrapf "failed to get current slot" err)), s)
  | Ok currentSlot =>
      if bool_decide (U64.add currentSlot (32 * 256) < slot)
      then (Returns (Err (Sentinel ErrSlotTooFarInFuture)), s)
      else GetSyncCommitteeDuties_fetch s tm slot
  end.
Proof.
  intros Hmiss. unfold GetSyncCommitteeDuties.
  pose proof (cache_get_state s (t_lookup tm) ("sync_duties:" +:+ U64.fmt_d slot)) as Hst.
  destruct (cache_get _ _ _) as [o s']. simpl in *. by subst.
Qed.

(** Against the client of this repository, an error of the fetch phase
    is "not found" or carries no sentinel at all. *)
Lemma GetBlockReward_fetch_errors (w : Node) (now : Time) (s : validatorService)
    (tm : timing) (slot : Z) (e : error) :
  ethClient s = client w now →
  (GetBlockReward_fetch s tm slot).1 = Returns (Err e) →
  ∀ t, Is e t = true → t = ErrSlotNotFound.
Proof.
  intros Hcl. unfold GetBlockReward_fetch. rewrite Hcl. simpl.
  destruct (GetBlockBySlot w slot) as [block|err] eqn:Hblock.
  - destruct (GetBlockRewards w slot) as [rewards|err] eqn:Hrewards.
    + unfold parseReward. destruct (SetString10 _); simpl; [done|].
      by intros [= <-].
    + simpl. intros [= <-]. simpl.
      by apply (doBeaconRequest_errors _ _ Hrewards).
  - destruct (IsNotFound err) eqn:Hnf; simpl; intros [= <-]; simpl.
    + by intros t <-%bool_decide_eq_true.
    + by apply (doBeaconRequest_errors _ _ Hblock).
Qed.

Lemma GetSyncCommitteeDuties_fetch_errors (w : Node) (now : Time) (s : validatorService)
    (tm : timing) (slot : Z) (e : error) :
  ethClient s = client w now →
  (GetSyncCommitteeDuties_fetch s tm slot).1 = Returns (Err e) →
  ∀ t, Is e t = true → t = ErrSlotNotFound.
Proof.
  intros Hcl. unfold GetSyncCommitteeDuties_fetch. rewrite Hcl. simpl.
  unfold GetSyncCommittee.
  destruct (doBeaconRequest _) as [resp|err] eqn:Hsync; simpl; [done|].
  destruct (IsNotFound err) eqn:Hnf; simpl; intros [= <-]; simpl.
  - by intros t <-%bool_decide_eq_true.
  - by apply (doBeaconRequest_errors _ _ Hsync).
Qed.

(** The client hands over a decoded body for an HTTP 200 whose body
    decodes, and for nothing else. *)
Lemma doBeaconRequest_Ok {A} (r : reply A) (a : A) :
  doBeaconRequest r = Ok a ↔ r = Answered 200 (inr a).
Proof.
  split; [|by intros ->].
  unfold doBeaconRequest. destruct r as [cause|cause|code decoded]; [done|done|].
  case_bool_decide; [done|]. case_bool_decide as H200; [done|].
  destruct decoded; [done|]. intros [= ->].
  destruct (decide (code = 200)) as [->|]; [done|]. by destruct H200.
Qed.

(** C9: for a slot [s] (an unsigned 64-bit value), the state that
    [GetSyncCommittee] asks the node for is [((s / 32) / 256) * 256 * 32],
    exactly, under the endpoint [states/<that>/sync_committees]: the call
    returns a validator list exactly when the node answers 200 with that
    list at that endpoint, and reports "not found" exactly when the node
    answers 404 there; so does [GetSyncCommitteeDuties] over this client
    when the cache misses and the slot is within its bound; the outcome
    depends on the node through that endpoint only; the helpers are
    [s / 32], [e / 256] and [p * 256 * 32] in 64-bit unsigned arithmetic,
    and on the period of [s] the last one is that same start slot. *)
Theorem sync_committee_period_start (s : Z) :
  U64.in_range s →
  let start := s / 32 / 256 * 256 * 32 in
  let endpoint := "states/" +:+ U64.fmt_d start +:+ "/sync_committees" in
  GetSyncCommittee_stateID s = start ∧
  GetSyncCommittee_endpoint s = endpoint ∧
  (∀ (w : Node) (vs : list string),
     GetSyncCommittee w s = Ok vs ↔
     ∃ resp, get_sync_committees w endpoint = Answered 200 (inr resp) ∧
             Validators (SyncData resp) = vs) ∧
  (∀ w : Node,
     (∃ e, GetSyncCommittee w s = Err e ∧ IsNotFound e = true) ↔
     ∃ d, get_sync_committees w endpoint = Answered 404 d) ∧
  (∀ (w : Node) (now : Time) c (tm : timing) (C : Z),
     let svc := {| ethClient := client w now; cache := c |} in
     (cache_get svc (t_lookup tm) ("sync_duties:" +:+ U64.fmt_d s)).1 = None →
     GetCurrentSlot w now = Ok C →
     s ≤ C + 256 * 32 →
     (∀ vs, (GetSyncCommitteeDuties svc tm s).1 = Returns (Ok {| DutiesValidators := vs |}) ↔
            ∃ resp, get_sync_committees w endpoint = Answered 200 (inr resp) ∧
                    Validators (SyncData resp) = vs) ∧
     ((GetSyncCommitteeDuties svc tm s).1 = Returns (Err (Sentinel ErrSlotNotFound)) ↔
      ∃ d, get_sync_committees w endpoint = Answered 404 d)) ∧
  (∀ w1 w2 : Node,
     get_sync_committees w1 endpoint = get_sync_committees w2 endpoint →
     GetSyncCommittee w1 s = GetSyncCommittee w2 s ∧
     ∀ now1 now2 c tm,
       (GetSyncCommitteeDuties_fetch {| ethClient := client w1 now1; cache := c |} tm s).1 =
       (GetSyncCommitteeDuties_fetch {| ethClient := client w2 now2; cache := c |} tm s).1) ∧
  slotToEpoch s = s / 32 ∧
  (∀ e, epochToSyncCommitteePeriod e = e / 256) ∧
  (∀ p, U64.in_range p → syncCommitteePeriodToSlot p = (p * 256 * 32) mod 2 ^ 64) ∧
  syncCommitteePeriodToSlot (epochToSyncCommitteePeriod (slotToEpoch s)) = start ∧
  start ≤ s < start + 256 * 32.
Proof.
  intros Hs start endpoint. pose proof (stateID_exact s Hs) as Hid.
  assert (Hrange : start ≤ s < start + 256 * 32).
  { subst start. unfold U64.in_range in Hs.
    pose proof (Z.div_mod s 32 ltac:(lia)).
    pose proof (Z.mod_pos_bound s 32 ltac:(lia)).
    pose proof (Z.div_mod (s / 32) 256 ltac:(lia)).
    pose proof (Z.mod_pos_bound (s / 32) 256 ltac:(lia)).
    lia. }
  assert (Hep : GetSyncCommittee_endpoint s = endpoint).
  { unfold GetSyncCommittee_endpoint. by rewrite Hid. }
  assert (Hok : ∀ (w : Node) vs,
            GetSyncCommittee w s = Ok vs ↔
            ∃ resp, get_sync_committees w endpoint = Answered 200 (inr resp) ∧
                    Validators (SyncData resp) = vs).
  { intros w vs. unfold GetSyncCommittee. rewrite Hep. split.
    - destruct (doBeaconRequest _) as [resp|err] eqn:Hreq; [|done].
      intros [= <-]. exists resp. split; [|done]. by apply doBeaconRequest_Ok.
    - intros (resp & -> & <-). done. }
  assert (Hnf : ∀ w : Node,
            (∃ e, GetSyncCommittee w s = Err e ∧ IsNotFound e = true) ↔
            ∃ d, get_sync_committees w endpoint = Answered 404 d).
  { intros w. unfold GetSyncCommittee. rewrite Hep. split.
    - intros (e & He & Hnf).
      destruct (doBeaconRequest _) as [resp|err] eqn:Hreq; [done|].
      injection He as ->. by apply (doBeaconRequest_errors _ _ Hreq).
    - intros (d & ->). by exists (Sentinel ErrSlotNotFound). }
  split; [done|]. split; [done|]. split; [done|]. split; [done|].
  split; [|split; [|split; [done|split; [done|split; [|split; [|done]]]]]].
  - intros w now c tm C svc Hmiss Hcur Hle.
    rewrite (GetSyncCommitteeDuties_miss svc tm s Hmiss).
    subst svc. cbn [ethClient client ClientGetCurrentSlot]. rewrite Hcur.
    pose proof (GetCurrentSlot_range _ _ _ Hcur) as HC.
    assert (Hsum : U64.add C (32 * 256) = C + 256 * 32).
    { unfold U64.add, U64.wrap, U64.modulus.
      assert ((2 ^ 64 - 1) / 12 = 1537228672809129301) as Hq by reflexivity.
      rewrite Z.mod_small; lia. }
    rewrite Hsum, bool_decide_eq_false_2 by lia.
    unfold GetSyncCommitteeDuties_fetch. cbn [ethClient client ClientGetSyncCommittee].
    destruct (GetSyncCommittee w s) as [vs0|err] eqn:Hget.
    + split.
      * intros vs. rewrite <-Hok, Hget. cbn [fst]. split; by intros [= ->].
      * cbn [fst]. split; [done|]. intros Hd. apply Hnf in Hd as (e & He & _). congruence.
    + assert (Hno : ∀ vs, ¬ ∃ resp, get_sync_committees w endpoint = Answered 200 (inr resp) ∧
                                    Validators (SyncData resp) = vs).
      { intros vs Hex. apply Hok in Hex. congruence. }
      destruct (IsNotFound err) eqn:Herr; cbn [fst].
      * split; [intros vs; split; [done|by intros ?%Hno]|].
        split; [|done]. intros _. apply Hnf. by exists err.
      * split; [intros vs; split; [done|by intros ?%Hno]|].
        split; [done|]. intros Hd. apply Hnf in Hd as (e & He1 & He). congruence.
  - intros w1 w2 Heq.
    assert (Hsame : GetSyncCommittee w1 s = GetSyncCommittee w2 s).
    { unfold GetSyncCommittee. by rewrite Hep, Heq. }
    split; [done|]. intros now1 now2 c tm.
    unfold GetSyncCommitteeDuties_fetch. simpl. rewrite Hsame.
    destruct (GetSyncCommittee w2 s) as [vs|err]; [done|]. by destruct (IsNotFound err).
  - intros p Hp. unfold syncCommitteePeriodToSlot, U64.mul, U64.wrap, U64.modulus.
    by rewrite Z.mul_mod_idemp_l.
  - exact Hid.
Qed.

Lemma sync_committee_period_start_witness :
  GetSyncCommittee_endpoint 12345 = "states/8192/sync_committees" ∧
  GetSyncCommittee period_node 12345 = Ok ["0xvalidator1"; "0xvalidator2"] ∧
  (GetSyncCommitteeDuties {| ethClient := client period_node demo_now; cache := None |}
     demo_timing 12345).1 =
  Returns (Ok {| DutiesValidators := ["0xvalidator1"; "0xvalidator2"] |}).
Proof.
  assert (Hs : U64.in_range 12345) by (unfold U64.in_range, U64.modulus; lia).
  pose proof (sync_committee_period_start 12345 Hs) as H. cbv zeta in H.
  destruct H as (_ & Hep & Hok & _ & Hsvc & _).
  split; [exact Hep|]. split.
  - apply Hok. eexists. split; reflexivity.
  - apply (proj1 (Hsvc period_node demo_now None demo_timing 20000
                    eq_refl eq_refl ltac:(lia))).
    eexists. split; reflexivity.
Defined.

(** C4: on a cache miss, with the current slot [C] computed by
    [GetCurrentSlot], [GetBlockReward] returns [ErrFutureSlot] exactly when
    [slot > C] and otherwise goes on to the fetch phase, and
    [GetSyncCommitteeDuties] returns [ErrSlotTooFarInFuture] exactly when
    [slot > C + 256*32] and otherwise goes on to the fetch phase (the
    64-bit sum cannot wrap, [C] being at most a twelfth of the range); no
    error returned for a slot within its bound is, or wraps, the bound's
    error. *)
Theorem bounds_check (w : Node) (now : Time) (s : validatorService) (tm : timing)
    (slot C : Z) :
  ethClient s = client w now →
  GetCurrentSlot w now = Ok C →
  ((cache_get s (t_lookup tm) ("block_reward:" +:+ U64.fmt_d slot)).1 = None →
     ((GetBlockReward s tm slot).1 = Returns (Err (Sentinel ErrFutureSlot)) ↔ C < slot) ∧
     (slot ≤ C → GetBlockReward s tm slot = GetBlockReward_fetch s tm slot) ∧
     (slot ≤ C → ∀ e, (GetBlockReward s tm slot).1 = Returns (Err e) →
        Is e ErrFutureSlot = false)) ∧
  ((cache_get s (t_lookup tm) ("sync_duties:" +:+ U64.fmt_d slot)).1 = None →
     ((GetSyncCommitteeDuties s tm slot).1 = Returns (Err (Sentinel ErrSlotTooFarInFuture))
        ↔ C + 256 * 32 < slot) ∧
     (slot ≤ C + 256 * 32 →
        GetSyncCommitteeDuties s tm slot = GetSyncCommitteeDuties_fetch s tm slot) ∧
     (slot ≤ C + 256 * 32 → ∀ e, (GetSyncCommitteeDuties s tm slot).1 = Returns (Err e) →
        Is e ErrSlotTooFarInFuture = false)).
Proof.
  intros Hcl Hslot.
  assert (Hcur : ClientGetCurrentSlot (ethClient s) = Ok C) by (by rewrite Hcl).
  pose proof (GetCurrentSlot_range w now C Hslot) as HC.
  assert (Hadd : U64.add C (32 * 256) = C + 256 * 32).
  { unfold U64.add, U64.wrap, U64.modulus.
    assert ((2 ^ 64 - 1) / 12 = 1537228672809129301) as Hq by reflexivity.
    rewrite Z.mod_small; lia. }
  assert (Hplain : ∀ (e : error) t, (∀ t', Is e t' = true → t' = ErrSlotNotFound) →
                                   t ≠ ErrSlotNotFound → Is e t = false).
  { intros e t He Ht. destruct (Is e t) eqn:Hit; [|done]. by apply He in Hit. }
  split.
  - intros Hmiss. rewrite (GetBlockReward_miss s tm slot Hmiss), Hcur.
    case_bool_decide as Hcmp; simpl.
    + split_and!; [done|lia|lia].
    + split_and!.
      * split; [|lia]. intros Hr.
        pose proof (GetBlockReward_fetch_errors w now s tm slot _ Hcl Hr ErrFutureSlot) as Hbad.
        discriminate (Hbad eq_refl).
      * done.
      * intros _ e Hr. apply Hplain; [|done].
        by apply (GetBlockReward_fetch_errors w now s tm slot).
  - intros Hmiss. rewrite (GetSyncCommitteeDuties_miss s tm slot Hmiss), Hcur, Hadd.
    case_bool_decide as Hcmp; simpl.
    + split_and!; [done|lia|lia].
    + split_and!.
      * split; [|lia]. intros Hr.
        pose proof (GetSyncCommitteeDuties_fetch_errors w now s tm slot _ Hcl Hr
                      ErrSlotTooFarInFuture) as Hbad.
        discriminate (Hbad eq_refl).
      * done.
      * intros _ e Hr. apply Hplain; [|done].
        by apply (GetSyncCommitteeDuties_fetch_errors w now s tm slot).
Qed.

Lemma bounds_check_witness :
  (GetBlockReward demo_service demo_timing 20001).1 = Returns (Err (Sentinel ErrFutureSlot)) ∧
  GetSyncCommitteeDuties demo_service demo_timing (20000 + 256 * 32) =
  GetSyncCommitteeDuties_fetch demo_service demo_timing (20000 + 256 * 32).
Proof.
  assert (Hslot : GetCurrentSlot demo_node demo_now = Ok 20000) by (by vm_compute).
  split.
  - destruct (bounds_check demo_node demo_now demo_service demo_timing 20001 20000
                eq_refl Hslot) as [Hreward _].
    apply Hreward; [reflexivity|lia].
  - destruct (bounds_check demo_node demo_now demo_service demo_timing (20000 + 256 * 32)
                20000 eq_refl Hslot) as [_ Hsync].
    apply Hsync; [reflexivity|lia].
Defined.

(** C7: for a slot within its bound, on a cache miss, a fetch that
    reports "not found" makes [GetBlockReward] and [GetSyncCommitteeDuties]
    fail with an error that [IsNotFound] recognises ([ErrSlotNotFound]
    itself when the block or the committee is missing), which is no bad
    request (so not [ErrFutureSlot]) and which the handler answers with
    404 rather than 500; a fetch that fails otherwise makes them fail with
    an error that [IsNotFound] rejects; and the client reports "not found"
    for an HTTP 404 and for no transport or decoding failure. *)
Theorem not_found_propagates (s : validatorService) (tm : timing) (slot C : Z) :
  ClientGetCurrentSlot (ethClient s) = Ok C →
  ((cache_get s (t_lookup tm) ("block_reward:" +:+ U64.fmt_d slot)).1 = None →
   slot ≤ C →
   let r := (GetBlockReward s tm slot).1 in
   (∀ err, ClientGetBlockBySlot (ethClient s) slot = Err err →
      if IsNotFound err then r = Returns (Err (Sentinel ErrSlotNotFound))
      else ∃ e, r = Returns (Err e) ∧ IsNotFound e = false) ∧
   (∀ block err, ClientGetBlockBySlot (ethClient s) slot = Ok block →
      ClientGetBlockRewards (ethClient s) slot = Err err →
      ∃ e, r = Returns (Err e) ∧ IsNotFound e = IsNotFound err)) ∧
  ((cache_get s (t_lookup tm) ("sync_duties:" +:+ U64.fmt_d slot)).1 = None →
   ¬ U64.add C (32 * 256) < slot →
   let r := (GetSyncCommitteeDuties s tm slot).1 in
   ∀ err, ClientGetSyncCommittee (ethClient s) slot = Err err →
     if IsNotFound err then r = Returns (Err (Sentinel ErrSlotNotFound))
     else ∃ e, r = Returns (Err e) ∧ IsNotFound e = false) ∧
  (∀ e, IsNotFound e = true →
     e ≠ Sentinel ErrFutureSlot ∧ IsBadRequest e = false ∧ IsTimeout e = false ∧
     Handlers.handleServiceError e = Handlers.StatusNotFound) ∧
  IsNotFound (Sentinel ErrSlotNotFound) = true ∧
  (∀ A (rp : reply A) e, doBeaconRequest rp = Err e →
     (IsNotFound e = true ↔ ∃ d, rp = Answered 404 d)).
Proof.
  intros Hcur. split_and!.
  - intros Hmiss Hle r. subst r.
    rewrite (GetBlockReward_miss s tm slot Hmiss), Hcur.
    rewrite bool_decide_eq_false_2 by lia.
    unfold GetBlockReward_fetch. split.
    + intros err ->. destruct (IsNotFound err) eqn:Hnf; simpl; [done|].
      eexists. split; [done|]. exact Hnf.
    + intros block err -> ->. simpl. eexists. split; done.
  - intros Hmiss Hle r err Herr. subst r.
    rewrite (GetSyncCommitteeDuties_miss s tm slot Hmiss), Hcur.
    rewrite bool_decide_eq_false_2 by done.
    unfold GetSyncCommitteeDuties_fetch. rewrite Herr.
    destruct (IsNotFound err) eqn:Hnf; simpl; [done|].
    eexists. split; [done|]. exact Hnf.
  - intros e Hnf. destruct (not_found_category e Hnf) as (? & ? & ?).
    split_and!; try done. by intros ->.
  - done.
  - intros A rp e Hrp. by apply doBeaconRequest_errors.
Qed.

Lemma not_found_propagates_witness :
  (GetBlockReward {| ethClient := missed_slot_client; cache := None |} demo_timing 12348).1
  = Returns (Err (Sentinel ErrSlotNotFound)).
Proof.
  destruct (not_found_propagates {| ethClient := missed_slot_client; cache := None |}
              demo_timing 12348 20000 eq_refl) as [Hreward _].
  destruct (Hreward eq_refl ltac:(lia)) as [Hblock _].
  exact (Hblock (Sentinel ErrSlotNotFound) eq_refl).
Defined.

(** *** Read-through *)

Lemma read_through_cached (s s' : validatorService) (c : Cache.MemoryCache cached)
    (tm tm' : timing) (slot : Z) (r : BlockReward) (cl' : Client) :
  cache s = Some c →
  (cache_get s (t_lookup tm) ("block_reward:" +:+ U64.fmt_d slot)).1 = None →
  GetBlockReward s tm slot = (Returns (Ok r), s') →
  t_lookup tm' ≤ t_fill tm + Cache.ttl c →
  GetBlockReward (with_cache {| ethClient := cl'; cache := None |} (cache s')) tm' slot =
  (Returns (Ok r), with_cache {| ethClient := cl'; cache := None |} (cache s')).
Proof.
  intros Hc Hmiss Hcall Hfresh.
  rewrite (GetBlockReward_miss s tm slot Hmiss) in Hcall.
  destruct (ClientGetCurrentSlot (ethClient s)) as [C|]; [|done].
  case_bool_decide; [done|].
  unfold GetBlockReward_fetch in Hcall.
  destruct (ClientGetBlockBySlot _ _) as [block|err]; [|by destruct (IsNotFound err)].
  destruct (ClientGetBlockRewards _ _) as [rewards|]; [|done].
  destruct (parseReward _) as [total|]; [|done].
  injection Hcall as <- <-.
  unfold cache_set. rewrite Hc. simpl.
  set (s2 := with_cache _ _).
  pose proof (cache_get_state s2 (t_lookup tm') ("block_reward:" +:+ U64.fmt_d slot)) as Hst.
  unfold GetBlockReward.
  destruct (cache_get s2 _ _) as [o s3] eqn:Hget. simpl in Hst. subst s3.
  assert (o = Some (CachedBlockReward
                      {| Status := determineBlockStatus block; Reward := total |})) as ->; [|done].
  apply (f_equal fst) in Hget. simpl in Hget. rewrite <-Hget.
  unfold cache_get, s2. simpl. rewrite CacheTheory.Get_unfold. simpl.
  rewrite lookup_insert_eq. simpl.
  by rewrite bool_decide_eq_false_2 by (unfold Add; lia).
Qed.


(** After a miss that ends in a result, the result is in the cache: a
    second call for the same slot, made before the entry expires, returns
    it without asking the client anything (whatever the client would
    answer) and leaves the service as it is. *)
Theorem read_through_hit (s s' : validatorService) (c : Cache.MemoryCache cached)
    (tm tm' : timing) (slot : Z) (r : BlockReward) (cl' : Client) :
  cache s = Some c →
  (cache_get s (t_lookup tm) ("block_reward:" +:+ U64.fmt_d slot)).1 = None →
  GetBlockReward s tm slot = (Returns (Ok r), s') →
  t_lookup tm' ≤ t_fill tm + Cache.ttl c →
  GetBlockReward ({| ethClient := cl'; cache := cache s' |}) tm' slot =
  (Returns (Ok r), {| ethClient := cl'; cache := cache s' |}).
Proof. exact (read_through_cached s s' c tm tm' slot r cl'). Qed.

Lemma read_through_hit_witness :
  ∃ s', GetBlockReward mev_service demo_timing 12345 =
          (Returns (Ok {| Status := "mev"; Reward := 1000000000000000000 |}), s') ∧
        GetBlockReward ({| ethClient := missed_slot_client; cache := cache s' |})
          demo_timing 12345 =
          (Returns (Ok {| Status := "mev"; Reward := 1000000000000000000 |}),
           {| ethClient := missed_slot_client; cache := cache s' |}).
Proof.
  eexists. split; [reflexivity|].
  apply (read_through_hit mev_service _ (Cache.NewMemoryCache 300000000000 1000)
           demo_timing demo_timing 12345).
  - reflexivity.
  - reflexivity.
  - reflexivity.
  - simpl. lia.
Defined.

(** The end-to-end scenario of the specification: slot 12345 with the
    current slot at 20000, a payload whose one transaction starts with
    0xa22cb465 and a reward total of 10^18 resolve to [mev] and 10^18, and
    the cache then returns that result under ["block_reward:12345"]. *)
Lemma end_to_end_mev :
  let out := GetBlockReward mev_service demo_timing 12345 in
  let result := {| Status := "mev"; Reward := 1000000000000000000 |} in
  out.1 = Returns (Ok result) ∧
  ∃ c, cache out.2 = Some c ∧
       (Cache.Get c demo_now "block_reward:12345").1 = Some (CachedBlockReward result).
Proof.
  simpl. split; [by vm_compute|]. eexists. split; [reflexivity|]. by vm_compute.
Qed.
End ServiceTheory.

(** * More on the cache *)
Module CacheMore.
Import Cache Statements CacheTheory.

(** [Set] then [Get]: the value just set is returned for the key, until
    its expiration, whatever was evicted and whatever the key held. *)
Theorem Set_then_Get {V} (c : MemoryCache V) (order : list (string * cacheItem V))
    (now t : Time) (key : string) (v : V) :
  t ≤ now + ttl c →
  (Get (Set_ order c now key v) t key).1 = Some v.
Proof.
  intros Ht. rewrite Get_unfold. cbn [fst]. unfold Set_, Add. cbn [items with_items].
  rewrite lookup_insert_eq. cbn [expiration value].
  by rewrite bool_decide_eq_false_2 by lia.
Qed.

Lemma Set_then_Get_witness :
  (Get (Set_ (map_to_list (items full_cache)) full_cache 3 "c" 33) 103 "c").1 = Some 33.
Proof. apply Set_then_Get. vm_compute. discriminate. Defined.

(** [Delete]: the key is not found afterwards, every other key is
    answered as before, no entry is added, and deleting a key that is not
    in the map changes nothing. *)
Theorem Delete_removes_only_key {V} (c : MemoryCache V) (key : string) (now : Time) :
  (Get (Delete c key) now key).1 = None ∧
  (∀ k, k ≠ key → (Get (Delete c key) now k).1 = (Get c now k).1) ∧
  (size (items (Delete c key)) ≤ size (items c))%nat ∧
  (items c !! key = None → Delete c key = c).
Proof.
  rewrite !Get_unfold. cbn [fst]. unfold Delete. cbn [items with_items]. split_and!.
  - by rewrite lookup_delete_eq.
  - intros k Hk. rewrite !Get_unfold. cbn [fst items with_items].
    by rewrite lookup_delete_ne.
  - rewrite map_size_delete. destruct (items c !! key); simpl; lia.
  - intros Hnone. rewrite delete_id by done. by destruct c.
Qed.

Lemma Delete_removes_only_key_witness :
  Delete full_cache "zz" = full_cache.
Proof.
  apply (proj2 (proj2 (proj2 (Delete_removes_only_key full_cache "zz" 0)))).
  by vm_compute.
Defined.

(** A sweep of the reaper at time [now] leaves in the map exactly the
    entries that [Get] returns at that time: every entry it keeps has
    [now ≤ expiresAt], and a second sweep at the same time removes nothing
    more. *)
Theorem removeExpired_keeps_live {V} (c : MemoryCache V) (now : Time) :
  (∀ k, value <$> (items (removeExpired c now) !! k) = (Get c now k).1) ∧
  (∀ k it, items (removeExpired c now) !! k = Some it →
     items c !! k = Some it ∧ now ≤ expiration it) ∧
  removeExpired (removeExpired c now) now = removeExpired c now.
Proof.
  unfold removeExpired. cbn [items with_items]. split_and!.
  - intros k. rewrite Get_unfold. cbn [fst].
    destruct (items c !! k) as [it|] eqn:Hk.
    + case_bool_decide as Hexp.
      * rewrite (proj2 (map_lookup_filter_None _ _ _)); [done|].
        right. intros it' Hit'. rewrite Hk in Hit'. injection Hit' as <-. simpl. lia.
      * by rewrite (map_lookup_filter_Some_2 _ _ _ it).
    + rewrite (proj2 (map_lookup_filter_None _ _ _)); [done|by left].
  - intros k it [Hk Hlive]%map_lookup_filter_Some. simpl in Hlive. split; [done|lia].
  - unfold with_items. cbn [items ttl maxSize stopChan]. f_equal.
    apply map_eq. intros k. apply option_eq. intros it.
    rewrite !map_lookup_filter_Some. split; [by intros [[? ?] ?]|by intros [? ?]].
Qed.

(** An entry stored under the empty string that expires strictly before
    every other entry is what the scan of [evictOldest] ends on, and the
    scan's result is then taken for "nothing chosen": a [Set] on the full
    cache evicts nothing, and a new key makes the map one entry larger than
    it was, past [maxSize]. *)
Theorem empty_key_never_evicted {V} (c : MemoryCache V) (order : list (string * cacheItem V))
    (now : Time) (key : string) (v : V) (it0 : cacheItem V) :
  order ≡ₚ map_to_list (items c) →
  stamped (items c) →
  items c !! "" = Some it0 →
  (∀ k it, k ≠ "" → items c !! k = Some it → expiration it0 < expiration it) →
  maxSize c ≤ Z.of_nat (size (items c)) →
  items c !! key = None →
  items (Set_ order c now key v) =
    <[key := {| value := v; expiration := now + ttl c |}]> (items c) ∧
  maxSize c < Z.of_nat (size (items (Set_ order c now key v))).
Proof.
  intros Hperm Hst H0 Hfirst Hfull Hnew.
  assert (Hne : items c ≠ ∅) by (intros Hm; by rewrite Hm in H0).
  destruct (evictOldest_spec order (items c) Hperm Hne) as (k & it & Hk & Hscan & Hmin).
  assert (k = "") as ->.
  { destruct (decide (k = "")) as [|Hkne]; [done|].
    specialize (Hmin Hst "" it0 H0). specialize (Hfirst k it Hkne Hk). lia. }
  assert (Hitems : items (Set_ order c now key v) =
                   <[key := {| value := v; expiration := now + ttl c |}]> (items c)).
  { unfold Set_, Add, evictOldest. cbn [items with_items].
    rewrite bool_decide_eq_true_2 by done. rewrite Hscan.
    by rewrite bool_decide_eq_false_2 by (by intros []). }
  split; [done|]. rewrite Hitems, map_size_insert_None by done. lia.
Qed.

Lemma empty_key_never_evicted_witness :
  let c1 := Set_ [] (NewMemoryCache (V:=Z) 100 1) 1 "" 11 in
  maxSize c1 < Z.of_nat (size (items (Set_ (map_to_list (items c1)) c1 2 "b" 22))).
Proof.
  intros c1.
  refine (proj2 (empty_key_never_evicted c1 (map_to_list (items c1)) 2 "b" 22
                   {| value := 11; expiration := 101 |} _ _ _ _ _ _)).
  - reflexivity.
  - apply stamped_map_to_list. vm_compute. repeat constructor; discriminate.
  - by vm_compute.
  - intros k it Hk Hit. exfalso.
    apply elem_of_map_to_list in Hit. vm_compute in Hit.
    apply list_elem_of_singleton in Hit. injection Hit as -> _. done.
  - by vm_compute.
  - by vm_compute.
Defined.

(** Eviction takes expired entries first: when a [Set] at time [now]
    finds the cache full and some entry already expired, every entry that
    is still live stays in the map (unless it is the key being set, which
    is overwritten).  Stated, as C2 is, for maps whose expirations are not
    the zero time and that do not use the empty string as a key. *)
Theorem eviction_prefers_expired {V} (c : MemoryCache V) (order : list (string * cacheItem V))
    (now : Time) (key : string) (v : V) (k0 : string) (it0 : cacheItem V) :
  order ≡ₚ map_to_list (items c) →
  stamped (items c) →
  items c !! "" = None →
  items c !! k0 = Some it0 →
  expiration it0 < now →
  ∀ k it, k ≠ key → items c !! k = Some it → now ≤ expiration it →
          items (Set_ order c now key v) !! k = Some it.
Proof.
  intros Hperm Hst Hnokey Hk0 Hexp k it Hk Hit Hlive.
  unfold Set_. cbn [items with_items]. rewrite lookup_insert_ne by done.
  case_bool_decide; [|done].
  assert (Hne : items c ≠ ∅) by (intros Hm; by rewrite Hm in Hk0).
  destruct (evictOldest_spec order (items c) Hperm Hne) as (kv & itv & Hkv & Hscan & Hmin).
  unfold evictOldest. rewrite Hscan. case_bool_decide; [|done].
  rewrite lookup_delete_ne; [done|]. intros ->.
  assert (itv = it) as -> by congruence.
  pose proof (Hmin Hst k0 it0 Hk0) as Hle. lia.
Qed.

Lemma eviction_prefers_expired_witness :
  items (Set_ (map_to_list (items full_cache)) full_cache 102 "c" 33) !! "b"
  = Some {| value := 22; expiration := 102 |}.
Proof.
  apply (eviction_prefers_expired full_cache _ 102 "c" 33 "a"
           {| value := 11; expiration := 101 |}).
  - reflexivity.
  - apply stamped_map_to_list. vm_compute. repeat constructor; discriminate.
  - by vm_compute.
  - by vm_compute.
  - simpl. lia.
  - discriminate.
  - by vm_compute.
  - simpl. lia.
Defined.
End CacheMore.

(** * More on the error taxonomy *)
Module ErrorsMore.
Import ServiceTheory.

(** The three classification predicates exclude one another, so the
    status [handleServiceError] answers with is 404, 400 or 408 exactly
    when [IsNotFound], [IsBadRequest] or [IsTimeout] holds and 500 when none
    does; and wrapping an error with [%w], or in a [ValidationError], keeps
    its status. *)
Theorem category_of_error (e : error) :
  (IsNotFound e = true → IsBadRequest e = false ∧ IsTimeout e = false) ∧
  (IsBadRequest e = true → IsNotFound e = false ∧ IsTimeout e = false) ∧
  (IsTimeout e = true → IsNotFound e = false ∧ IsBadRequest e = false) ∧
  (Handlers.handleServiceError e = Handlers.StatusNotFound ↔ IsNotFound e = true) ∧
  (Handlers.handleServiceError e = Handlers.StatusBadRequest ↔ IsBadRequest e = true) ∧
  (Handlers.handleServiceError e = Handlers.StatusRequestTimeout ↔ IsTimeout e = true) ∧
  (Handlers.handleServiceError e = Handlers.StatusInternalServerError ↔
     IsNotFound e = false ∧ IsBadRequest e = false ∧ IsTimeout e = false) ∧
  (∀ msg, Handlers.handleServiceError (Wrapf msg e) = Handlers.handleServiceError e) ∧
  (∀ field v, Handlers.handleServiceError (NewValidationError field v e)
              = Handlers.handleServiceError e).
Proof.
  assert (Hex : ∀ t1 t2, t1 ≠ t2 → Is e t1 = true → Is e t2 = false).
  { intros t1 t2 Hne H1. destruct (Is e t2) eqn:H2; [|done].
    destruct Hne. by apply (Is_unique e). }
  unfold Handlers.handleServiceError, IsNotFound, IsBadRequest, IsTimeout,
    Handlers.StatusNotFound, Handlers.StatusBadRequest, Handlers.StatusRequestTimeout,
    Handlers.StatusInternalServerError.
  split_and!; [..|by intros|by intros].
  all: destruct (Is e ErrSlotNotFound) eqn:Hnf;
    [rewrite ?(Hex ErrSlotNotFound) by done; simpl; intuition (discriminate || done)|].
  all: destruct (Is e ErrFutureSlot) eqn:Hfs;
    [rewrite ?(Hex ErrFutureSlot) by done; simpl; intuition (discriminate || done)|].
  all: destruct (Is e ErrInvalidSlot) eqn:His;
    [rewrite ?(Hex ErrInvalidSlot) by done; simpl; intuition (discriminate || done)|].
  all: destruct (Is e ErrSlotTooFarInFuture) eqn:Htf;
    [rewrite ?(Hex ErrSlotTooFarInFuture) by done; simpl; intuition (discriminate || done)|].
  all: simpl; destruct (Is e ErrTimeout); intuition (discriminate || done).
Qed.
End ErrorsMore.

(** * More on the service *)
Module ServiceMore.
Import Cache Service Statements Sessions CacheTheory ServiceTheory.

(** *** Cache keys *)

Lemma key_facts (a b : Z) :
  (reward_key a = reward_key b → a = b) ∧
  (duties_key a = duties_key b → a = b) ∧
  reward_key a ≠ duties_key b.
Proof.
  unfold reward_key, duties_key, U64.fmt_d. cbn [String.append]. split_and!.
  - intros [= H]. change (pretty a = pretty b) in H. by apply (inj pretty) in H.
  - intros [= H]. change (pretty a = pretty b) in H. by apply (inj pretty) in H.
  - intros [=].
Qed.

(** Distinct slots have distinct keys, and a key of one query is never a
    key of the other: an entry of the cache belongs to one query and one
    slot. *)
Theorem cache_keys_distinct (a b : Z) :
  (reward_key a = reward_key b → a = b) ∧
  (duties_key a = duties_key b → a = b) ∧
  reward_key a ≠ duties_key b.
Proof. exact (key_facts a b). Qed.

(** *** What a call does to the cache *)

Lemma GetBlockReward_state (s : validatorService) (tm : timing) (slot : Z) :
  (GetBlockReward s tm slot).2 = s ∨
  ∃ r, (cache_get s (t_lookup tm) (reward_key slot)).1 = None ∧
       GetBlockReward s tm slot =
       (Returns (Ok r),
        cache_set s (range_order tm) (t_fill tm) (reward_key slot) (CachedBlockReward r)).
Proof.
  destruct ((cache_get s (t_lookup tm) (reward_key slot)).1) as [v|] eqn:Hget.
  - left. unfold GetBlockReward. fold (reward_key slot).
    pose proof (cache_get_state s (t_lookup tm) (reward_key slot)) as Hst.
    destruct (cache_get _ _ _) as [o s1]. simpl in *. subst. by destruct v.
  - rewrite (GetBlockReward_miss s tm slot Hget).
    destruct (ClientGetCurrentSlot _); [|by left].
    case_bool_decide; [by left|].
    unfold GetBlockReward_fetch. fold (reward_key slot).
    destruct (ClientGetBlockBySlot _ _) as [block|err];
      [|left; by destruct (IsNotFound err)].
    destruct (ClientGetBlockRewards _ _); [|by left].
    destruct (parseReward _); [|by left].
    right. eexists. split; [done|reflexivity].
Qed.

Lemma GetSyncCommitteeDuties_state (s : validatorService) (tm : timing) (slot : Z) :
  (GetSyncCommitteeDuties s tm slot).2 = s ∨
  ∃ d, (cache_get s (t_lookup tm) (duties_key slot)).1 = None ∧
       GetSyncCommitteeDuties s tm slot =
       (Returns (Ok d),
        cache_set s (range_order tm) (t_fill tm) (duties_key slot)
          (CachedSyncCommitteeDuties d)).
Proof.
  destruct ((cache_get s (t_lookup tm) (duties_key slot)).1) as [v|] eqn:Hget.
  - left. unfold GetSyncCommitteeDuties. fold (duties_key slot).
    pose proof (cache_get_state s (t_lookup tm) (duties_key slot)) as Hst.
    destruct (cache_get _ _ _) as [o s1]. simpl in *. subst. by destruct v.
  - rewrite (GetSyncCommitteeDuties_miss s tm slot Hget).
    destruct (ClientGetCurrentSlot _); [|by left].
    case_bool_decide; [by left|].
    unfold GetSyncCommitteeDuties_fetch. fold (duties_key slot).
    destruct (ClientGetSyncCommittee _ _) as [vs|err];
      [|left; by destruct (IsNotFound err)].
    right. eexists. split; [done|reflexivity].
Qed.

Lemma GetBlockReward_fill (s : validatorService) (tm : timing) (slot : Z) (r : BlockReward) :
  (cache_get s (t_lookup tm) (reward_key slot)).1 = None →
  (GetBlockReward s tm slot).1 = Returns (Ok r) →
  (GetBlockReward s tm slot).2 =
  cache_set s (range_order tm) (t_fill tm) (reward_key slot) (CachedBlockReward r).
Proof.
  intros Hmiss Hout. rewrite (GetBlockReward_miss s tm slot Hmiss) in Hout |- *.
  destruct (ClientGetCurrentSlot _); [|done].
  case_bool_decide; [done|].
  unfold GetBlockReward_fetch in *. fold (reward_key slot) in *.
  destruct (ClientGetBlockBySlot _ _) as [block|err]; [|by destruct (IsNotFound err)].
  destruct (ClientGetBlockRewards _ _); [|done].
  destruct (parseReward _); [|done].
  simpl in *. by injection Hout as <-.
Qed.

Lemma GetSyncCommitteeDuties_fill (s : validatorService) (tm : timing) (slot : Z)
    (d : SyncCommitteeDuties) :
  (cache_get s (t_lookup tm) (duties_key slot)).1 = None →
  (GetSyncCommitteeDuties s tm slot).1 = Returns (Ok d) →
  (GetSyncCommitteeDuties s tm slot).2 =
  cache_set s (range_order tm) (t_fill tm) (duties_key slot) (CachedSyncCommitteeDuties d).
Proof.
  intros Hmiss Hout. rewrite (GetSyncCommitteeDuties_miss s tm slot Hmiss) in Hout |- *.
  destruct (ClientGetCurrentSlot _); [|done].
  case_bool_decide; [done|].
  unfold GetSyncCommitteeDuties_fetch in *. fold (duties_key slot) in *.
  destruct (ClientGetSyncCommittee _ _) as [vs|err]; [|by destruct (IsNotFound err)].
  simpl in *. by injection Hout as <-.
Qed.

(** Only a miss that ends in a result changes the cache, and it changes
    it by one [Set] under the key of the query: a call that fails, with any
    error, and a call answered from the cache leave the service as it was. *)
Theorem only_results_are_cached (s : validatorService) (tm : timing) (slot : Z) :
  (∀ e, (GetBlockReward s tm slot).1 = Returns (Err e) →
     (GetBlockReward s tm slot).2 = s) ∧
  (∀ e, (GetSyncCommitteeDuties s tm slot).1 = Returns (Err e) →
     (GetSyncCommitteeDuties s tm slot).2 = s) ∧
  (∀ v, (cache_get s (t_lookup tm) (reward_key slot)).1 = Some v →
     (GetBlockReward s tm slot).2 = s) ∧
  (∀ v, (cache_get s (t_lookup tm) (duties_key slot)).1 = Some v →
     (GetSyncCommitteeDuties s tm slot).2 = s) ∧
  (∀ r, (cache_get s (t_lookup tm) (reward_key slot)).1 = None →
     (GetBlockReward s tm slot).1 = Returns (Ok r) →
     (GetBlockReward s tm slot).2 =
     cache_set s (range_order tm) (t_fill tm) (reward_key slot) (CachedBlockReward r)) ∧
  (∀ d, (cache_get s (t_lookup tm) (duties_key slot)).1 = None →
     (GetSyncCommitteeDuties s tm slot).1 = Returns (Ok d) →
     (GetSyncCommitteeDuties s tm slot).2 =
     cache_set s (range_order tm) (t_fill tm) (duties_key slot)
       (CachedSyncCommitteeDuties d)).
Proof.
  pose proof (GetBlockReward_state s tm slot) as Hr.
  pose proof (GetSyncCommitteeDuties_state s tm slot) as Hd.
  split_and!.
  - intros e He. destruct Hr as [?|(r & _ & Heq)]; [done|].
    rewrite Heq in He. done.
  - intros e He. destruct Hd as [?|(d & _ & Heq)]; [done|].
    rewrite Heq in He. done.
  - intros v Hv. destruct Hr as [?|(r & Hmiss & _)]; [done|congruence].
  - intros v Hv. destruct Hd as [?|(d & Hmiss & _)]; [done|congruence].
  - intros r. apply GetBlockReward_fill.
  - intros d. apply GetSyncCommitteeDuties_fill.
Qed.

Lemma only_results_are_cached_witness :
  (GetBlockReward mev_service demo_timing 30000).2 = mev_service.
Proof.
  apply (proj1 (only_results_are_cached mev_service demo_timing 30000)
           (Sentinel ErrFutureSlot)).
  reflexivity.
Defined.

(** *** Invariants of the cache across calls *)

Lemma evictOldest_lookup {V} (order : list (string * cacheItem V))
    (m : gmap string (cacheItem V)) (k : string) (it : cacheItem V) :
  evictOldest order m !! k = Some it → m !! k = Some it.
Proof.
  unfold evictOldest. case_bool_decide; [|done].
  by intros [_ ?]%lookup_delete_Some.
Qed.

Lemma Set_lookup {V} (order : list (string * cacheItem V)) (c : MemoryCache V)
    (now : Time) (key : string) (v : V) (k : string) (it : cacheItem V) :
  items (Set_ order c now key v) !! k = Some it →
  (k = key ∧ value it = v) ∨ (k ≠ key ∧ items c !! k = Some it).
Proof.
  unfold Set_. cbn [items with_items].
  destruct (decide (k = key)) as [->|Hne].
  - rewrite lookup_insert_eq. intros [= <-]. by left.
  - rewrite lookup_insert_ne by done. intros Hk. right. split; [done|].
    case_bool_decide; [by apply evictOldest_lookup in Hk|done].
Qed.

Lemma cache_get_Some (s : validatorService) (t : Time) (k : string) (v : cached) :
  (cache_get s t k).1 = Some v →
  ∃ c it, cache s = Some c ∧ items c !! k = Some it ∧ value it = v.
Proof.
  unfold cache_get. destruct (cache s) as [c|]; [|done]. cbn [fst].
  rewrite Get_unfold. cbn [fst].
  destruct (items c !! k) as [it|] eqn:Hk; [|done].
  case_bool_decide; [done|]. intros [= <-]. eauto.
Qed.

Lemma cache_set_reward_holds Pr Pd (s : validatorService) order now slot r :
  entries_hold Pr Pd s → Pr slot r →
  entries_hold Pr Pd (cache_set s order now (reward_key slot) (CachedBlockReward r)).
Proof.
  intros Hs HP. unfold cache_set. destruct (cache s) as [c|] eqn:Hc; [|done].
  intros c' [= <-] slot' it. specialize (Hs c Hc slot' it) as [Hr Hd]. split.
  - intros [[Hk Hv]|[Hk Hit]]%Set_lookup.
    + apply key_facts in Hk as ->. eauto.
    + by apply Hr.
  - intros [[Hk Hv]|[Hk Hit]]%Set_lookup.
    + symmetry in Hk. by apply key_facts in Hk.
    + by apply Hd.
Qed.

Lemma cache_set_duties_holds Pr Pd (s : validatorService) order now slot d :
  entries_hold Pr Pd s → Pd slot d →
  entries_hold Pr Pd
    (cache_set s order now (duties_key slot) (CachedSyncCommitteeDuties d)).
Proof.
  intros Hs HP. unfold cache_set. destruct (cache s) as [c|] eqn:Hc; [|done].
  intros c' [= <-] slot' it. specialize (Hs c Hc slot' it) as [Hr Hd]. split.
  - intros [[Hk Hv]|[Hk Hit]]%Set_lookup.
    + by apply key_facts in Hk.
    + by apply Hr.
  - intros [[Hk Hv]|[Hk Hit]]%Set_lookup.
    + apply key_facts in Hk as ->. eauto.
    + by apply Hd.
Qed.

Lemma serve_holds Pr Pd (s : validatorService) (cl : Client) (tm : timing) (q : query) :
  entries_hold Pr Pd s →
  (∀ slot r, q = QueryReward slot →
     (cache_get (with_client s cl) (t_lookup tm) (reward_key slot)).1 = None →
     (GetBlockReward (with_client s cl) tm slot).1 = Returns (Ok r) → Pr slot r) →
  (∀ slot d, q = QueryDuties slot →
     (cache_get (with_client s cl) (t_lookup tm) (duties_key slot)).1 = None →
     (GetSyncCommitteeDuties (with_client s cl) tm slot).1 = Returns (Ok d) → Pd slot d) →
  entries_hold Pr Pd (serve s cl tm q).2.
Proof.
  intros Hs Hr Hd.
  assert (Hs' : entries_hold Pr Pd (with_client s cl)) by done.
  destruct q as [slot|slot]; cbn [serve snd].
  - destruct (GetBlockReward_state (with_client s cl) tm slot) as [->|(r & Hmiss & Heq)];
      [done|].
    rewrite Heq. cbn [snd]. apply cache_set_reward_holds; [done|].
    apply (Hr slot r eq_refl Hmiss). by rewrite Heq.
  - destruct (GetSyncCommitteeDuties_state (with_client s cl) tm slot)
      as [->|(d & Hmiss & Heq)]; [done|].
    rewrite Heq. cbn [snd]. apply cache_set_duties_holds; [done|].
    apply (Hd slot d eq_refl Hmiss). by rewrite Heq.
Qed.

Lemma fresh_holds Pr Pd (s : validatorService) :
  fresh_service s → entries_hold Pr Pd s.
Proof.
  intros [Hnone|(ttl0 & max0 & Hnew)] c Hc slot it.
  - congruence.
  - rewrite Hnew in Hc. injection Hc as <-. cbn [items NewMemoryCache].
    rewrite !lookup_empty. done.
Qed.

(** A call answers from the cache with what the entry holds, when the
    entry is of the query's kind. *)
Lemma serve_outcome_typed Pr Pd (s : validatorService) (cl : Client) (tm : timing)
    (q : query) :
  entries_hold Pr Pd s →
  match q with
  | QueryReward slot =>
      ∀ v, (cache_get (with_client s cl) (t_lookup tm) (reward_key slot)).1 = Some v →
           ∃ r, Pr slot r ∧ (serve s cl tm q).1 = Returns (Ok (AnswerReward r))
  | QueryDuties slot =>
      ∀ v, (cache_get (with_client s cl) (t_lookup tm) (duties_key slot)).1 = Some v →
           ∃ d, Pd slot d ∧ (serve s cl tm q).1 = Returns (Ok (AnswerDuties d))
  end.
Proof.
  intros Hs. destruct q as [slot|slot]; intros v Hv.
  - destruct (cache_get_Some _ _ _ _ Hv) as (c & it & Hc & Hit & <-).
    destruct (proj1 (Hs c Hc slot it) Hit) as (r & Hval & HP).
    exists r. split; [done|]. cbn [serve fst]. unfold GetBlockReward.
    fold (reward_key slot). destruct (cache_get _ _ _) as [o s1].
    cbn [fst] in Hv. subst o. by rewrite Hval.
  - destruct (cache_get_Some _ _ _ _ Hv) as (c & it & Hc & Hit & <-).
    destruct (proj2 (Hs c Hc slot it) Hit) as (d & Hval & HP).
    exists d. split; [done|]. cbn [serve fst]. unfold GetSyncCommitteeDuties.
    fold (duties_key slot). destruct (cache_get _ _ _) as [o s1].
    cbn [fst] in Hv. subst o. by rewrite Hval.
Qed.

(** The outcome of the fetch phase is the client's doing alone. *)
Lemma miss_outcome_uncached (s : validatorService) (tm tm' : timing) (q : query) :
  match q with
  | QueryReward slot =>
      (cache_get s (t_lookup tm) (reward_key slot)).1 = None →
      (GetBlockReward s tm slot).1 = (GetBlockReward (uncached (ethClient s)) tm' slot).1
  | QueryDuties slot =>
      (cache_get s (t_lookup tm) (duties_key slot)).1 = None →
      (GetSyncCommitteeDuties s tm slot).1 =
      (GetSyncCommitteeDuties (uncached (ethClient s)) tm' slot).1
  end.
Proof.
  destruct q as [slot|slot]; intros Hmiss.
  - rewrite (GetBlockReward_miss s tm slot Hmiss).
    rewrite (GetBlockReward_miss (uncached (ethClient s)) tm' slot eq_refl).
    cbn [uncached ethClient].
    destruct (ClientGetCurrentSlot _); [|done]. case_bool_decide; [done|].
    unfold GetBlockReward_fetch. cbn [ethClient].
    destruct (ClientGetBlockBySlot _ _) as [block|err]; [|by destruct (IsNotFound err)].
    destruct (ClientGetBlockRewards _ _); [|done].
    by destruct (parseReward _).
  - rewrite (GetSyncCommitteeDuties_miss s tm slot Hmiss).
    rewrite (GetSyncCommitteeDuties_miss (uncached (ethClient s)) tm' slot eq_refl).
    cbn [uncached ethClient].
    destruct (ClientGetCurrentSlot _); [|done]. case_bool_decide; [done|].
    unfold GetSyncCommitteeDuties_fetch. cbn [ethClient].
    by destruct (ClientGetSyncCommittee _ _) as [vs|err]; [|destruct (IsNotFound err)].
Qed.

Lemma served_holds Pr Pd (s0 s : validatorService) calls :
  (∀ s1 cl tm slot r, (cl, tm, QueryReward slot) ∈ calls →
     (cache_get (with_client s1 cl) (t_lookup tm) (reward_key slot)).1 = None →
     (GetBlockReward (with_client s1 cl) tm slot).1 = Returns (Ok r) → Pr slot r) →
  (∀ s1 cl tm slot d, (cl, tm, QueryDuties slot) ∈ calls →
     (cache_get (with_client s1 cl) (t_lookup tm) (duties_key slot)).1 = None →
     (GetSyncCommitteeDuties (with_client s1 cl) tm slot).1 = Returns (Ok d) → Pd slot d) →
  served s0 calls s → entries_hold Pr Pd s0 → entries_hold Pr Pd s.
Proof.
  intros Hr Hd Hserved. induction Hserved as [|s cl tm q calls s' _ _ IH]; [done|].
  intros Hs. apply IH.
  - intros s1 cl1 tm1 slot r Hin. apply Hr. by apply list_elem_of_further.
  - intros s1 cl1 tm1 slot d Hin. apply Hd. by apply list_elem_of_further.
  - apply serve_holds; [done| |].
    + intros slot r ->. apply Hr. by apply list_elem_of_here.
    + intros slot d ->. apply Hd. by apply list_elem_of_here.
Qed.

(** Over the client of this repository the service never panics: after
    any sequence of calls on a service that started without a cache or
    with a new one, each made through that client against whatever node,
    no call made through that client ends in a panic.  The type assertion
    on a cached value always finds the type it asks for, and the block and
    the rewards that this client hands over with a nil error are never nil
    pointers. *)
Theorem service_never_panics (s0 s : validatorService) calls (w : Node) (now : Time)
    (tm : timing) (q : query) (msg : string) :
  fresh_service s0 →
  Forall (λ call : Client * timing * query, repository_client call.1.1) calls →
  served s0 calls s →
  (serve s (client w now) tm q).1 ≠ Panics msg.
Proof.
  intros Hfresh _ Hserved. set (cl := client w now).
  assert (Hs : entries_hold (λ _ _, True) (λ _ _, True) s).
  { eapply served_holds; [done|done|exact Hserved|by apply fresh_holds]. }
  pose proof (serve_outcome_typed _ _ s cl tm q Hs) as Hhit.
  destruct q as [slot|slot].
  - destruct ((cache_get (with_client s cl) (t_lookup tm) (reward_key slot)).1)
      as [v|] eqn:Hget.
    + destruct (Hhit v eq_refl) as (r & _ & ->). done.
    + cbn [serve fst].
      rewrite (GetBlockReward_miss _ tm slot Hget).
      destruct (ClientGetCurrentSlot _); [|done]. case_bool_decide; [done|].
      unfold GetBlockReward_fetch.
      destruct (ClientGetBlockBySlot _ _) as [block|err]; [|by destruct (IsNotFound err)].
      destruct (ClientGetBlockRewards _ _); [|done].
      by destruct (parseReward _).
  - destruct ((cache_get (with_client s cl) (t_lookup tm) (duties_key slot)).1)
      as [v|] eqn:Hget.
    + destruct (Hhit v eq_refl) as (d & _ & ->). done.
    + cbn [serve fst].
      rewrite (GetSyncCommitteeDuties_miss _ tm slot Hget).
      destruct (ClientGetCurrentSlot _); [|done]. case_bool_decide; [done|].
      unfold GetSyncCommitteeDuties_fetch.
      by destruct (ClientGetSyncCommittee _ _) as [vs|err]; [|destruct (IsNotFound err)].
Qed.

Lemma service_never_panics_witness :
  let cl := client demo_node demo_now in
  let s0 := {| ethClient := cl; cache := Some (NewMemoryCache 300000000000 1000) |} in
  (serve (serve s0 cl demo_timing (QueryDuties 12345)).2
     cl demo_timing (QueryReward 12345)).1 ≠ Panics "interface conversion".
Proof.
  intros cl s0.
  apply (service_never_panics s0 _ [(cl, demo_timing, QueryDuties 12345)]).
  - right. by eexists _, _.
  - repeat constructor. by exists demo_node, demo_now.
  - eapply served_cons; [|apply served_nil].
    intros c [= <-]. reflexivity.
Defined.

(** With a client whose answers do not change, the cache changes no
    answer: after any sequence of calls made with that client, a call
    returns what the service without a cache returns for it. *)
Theorem cache_is_transparent (s0 s : validatorService) calls (cl : Client)
    (tm : timing) (q : query) :
  fresh_service s0 →
  Forall (λ call, call.1.1 = cl) calls →
  served s0 calls s →
  (serve s cl tm q).1 = (serve (uncached cl) cl tm q).1.
Proof.
  intros Hfresh Hcl Hserved.
  set (Pr := λ slot r, ∀ tm', (GetBlockReward (uncached cl) tm' slot).1 = Returns (Ok r)).
  set (Pd := λ slot d,
         ∀ tm', (GetSyncCommitteeDuties (uncached cl) tm' slot).1 = Returns (Ok d)).
  assert (Hs : entries_hold Pr Pd s).
  { eapply (served_holds Pr Pd); [| |exact Hserved|by apply fresh_holds].
    - intros s1 cl1 tm1 slot r Hin Hmiss Hout tm'.
      rewrite Forall_forall in Hcl. specialize (Hcl _ Hin). simpl in Hcl. subst cl1.
      rewrite <-Hout.
      symmetry. exact (miss_outcome_uncached (with_client s1 cl) tm1 tm' (QueryReward slot) Hmiss).
    - intros s1 cl1 tm1 slot d Hin Hmiss Hout tm'.
      rewrite Forall_forall in Hcl. specialize (Hcl _ Hin). simpl in Hcl. subst cl1.
      rewrite <-Hout.
      symmetry. exact (miss_outcome_uncached (with_client s1 cl) tm1 tm' (QueryDuties slot) Hmiss). }
  pose proof (serve_outcome_typed _ _ s cl tm q Hs) as Hhit.
  pose proof (miss_outcome_uncached (with_client s cl) tm tm q) as Hmiss.
  destruct q as [slot|slot].
  - destruct ((cache_get (with_client s cl) (t_lookup tm) (reward_key slot)).1)
      as [v|] eqn:Hget.
    + destruct (Hhit v eq_refl) as (r & HP & ->).
      cbn [serve fst]. change (with_client (uncached cl) cl) with (uncached cl).
      by rewrite (HP tm).
    + cbn [serve fst]. change (with_client (uncached cl) cl) with (uncached cl).
      by rewrite (Hmiss eq_refl).
  - destruct ((cache_get (with_client s cl) (t_lookup tm) (duties_key slot)).1)
      as [v|] eqn:Hget.
    + destruct (Hhit v eq_refl) as (d & HP & ->).
      cbn [serve fst]. change (with_client (uncached cl) cl) with (uncached cl).
      by rewrite (HP tm).
    + cbn [serve fst]. change (with_client (uncached cl) cl) with (uncached cl).
      by rewrite (Hmiss eq_refl).
Qed.

Lemma cache_is_transparent_witness :
  (serve (serve mev_service mev_block_client demo_timing (QueryReward 12345)).2
     mev_block_client demo_timing (QueryReward 12345)).1 =
  (serve (uncached mev_block_client) mev_block_client demo_timing (QueryReward 12345)).1.
Proof.
  apply (cache_is_transparent mev_service _
           [(mev_block_client, demo_timing, QueryReward 12345)]).
  - right. by eexists _, _.
  - by repeat constructor.
  - eapply served_cons; [|apply served_nil].
    intros c [= <-]. reflexivity.
Defined.

(** The cache of the service stays within its capacity: with
    [maxSize ≥ 1], after any sequence of calls on a service that started
    with a new cache, the cache holds at most [maxSize] entries (the keys
    of the service are never the empty string). *)
Theorem service_cache_bounded (s0 s : validatorService) calls (ttl0 : Duration)
    (maxSize0 : Z) :
  1 ≤ maxSize0 →
  cache s0 = Some (NewMemoryCache ttl0 maxSize0) →
  served s0 calls s →
  ∃ c, cache s = Some c ∧ maxSize c = maxSize0 ∧ ttl c = ttl0 ∧
       Z.of_nat (size (items c)) ≤ maxSize0.
Proof.
  intros Hpos Hnew Hserved.
  cut (∀ c0, cache s0 = Some c0 → maxSize c0 = maxSize0 → ttl c0 = ttl0 →
             Z.of_nat (size (items c0)) ≤ maxSize c0 ∧ items c0 !! "" = None →
             ∃ c, cache s = Some c ∧ maxSize c = maxSize0 ∧ ttl c = ttl0 ∧
                  Z.of_nat (size (items c)) ≤ maxSize c ∧ items c !! "" = None).
  { intros Hcut. destruct (Hcut _ Hnew eq_refl eq_refl) as (c & ? & Hm & ? & Hsz & _).
    - simpl. rewrite map_size_empty. split; [lia|done].
    - exists c. rewrite Hm in Hsz. done. }
  clear Hnew. induction Hserved as [s|s cl tm q calls s' Hperm _ IH].
  { intros c0 Hc0 Hm Ht Hinv. exists c0. by destruct Hinv. }
  intros c0 Hc0 Hm Ht Hinv.
  assert (Hstep : cache (serve s cl tm q).2 = Some c0 ∨
                  ∃ key v, key ≠ "" ∧
                    cache (serve s cl tm q).2 =
                    Some (Set_ (range_order tm) c0 (t_fill tm) key v)).
  { destruct q as [slot|slot]; cbn [serve snd].
    - destruct (GetBlockReward_state (with_client s cl) tm slot) as [->|(r & _ & ->)];
        [by left|].
      right. exists (reward_key slot), (CachedBlockReward r). split; [done|].
      cbn [snd]. unfold cache_set. cbn [with_client cache]. by rewrite Hc0.
    - destruct (GetSyncCommitteeDuties_state (with_client s cl) tm slot)
        as [->|(d & _ & ->)]; [by left|].
      right. exists (duties_key slot), (CachedSyncCommitteeDuties d). split; [done|].
      cbn [snd]. unfold cache_set. cbn [with_client cache]. by rewrite Hc0. }
  destruct Hstep as [Hsame|(key & v & Hkey & Hset)].
  - by apply (IH c0).
  - apply (IH _ Hset); [done|done|].
    apply (step_capacity c0 (t_fill tm) (CallSet key v)).
    + apply step_set. by apply Hperm.
    + lia.
    + by intros k v' [= -> _].
    + done.
Qed.

Lemma service_cache_bounded_witness :
  ∃ c, cache (serve mev_service mev_block_client demo_timing (QueryReward 12345)).2 = Some c ∧
       maxSize c = 1000 ∧ ttl c = 300000000000 ∧ Z.of_nat (size (items c)) ≤ 1000.
Proof.
  apply (service_cache_bounded mev_service _
           [(mev_block_client, demo_timing, QueryReward 12345)] 300000000000 1000).
  - lia.
  - reflexivity.
  - eapply served_cons; [|apply served_nil].
    intros c [= <-]. reflexivity.
Defined.

(** *** Read-through for the sync duties *)

(** After a miss on which [GetSyncCommitteeDuties] returns duties, a
    second call for the same slot, made before the entry expires, returns
    them from the cache, whatever the client would answer, and leaves the
    service as it is. *)
Theorem read_through_duties_hit (s s' : validatorService) (c : MemoryCache cached)
    (tm tm' : timing) (slot : Z) (d : SyncCommitteeDuties) (cl' : Client) :
  cache s = Some c →
  (cache_get s (t_lookup tm) (duties_key slot)).1 = None →
  GetSyncCommitteeDuties s tm slot = (Returns (Ok d), s') →
  t_lookup tm' ≤ t_fill tm + ttl c →
  GetSyncCommitteeDuties (with_client s' cl') tm' slot = (Returns (Ok d), with_client s' cl').
Proof.
  intros Hc Hmiss Hcall Hfresh.
  pose proof (GetSyncCommitteeDuties_fill s tm slot d Hmiss) as Hfill.
  rewrite Hcall in Hfill. cbn [fst snd] in Hfill. specialize (Hfill eq_refl). subst s'.
  unfold cache_set. rewrite Hc.
  set (s2 := with_client _ _).
  pose proof (cache_get_state s2 (t_lookup tm') (duties_key slot)) as Hst.
  unfold GetSyncCommitteeDuties. fold (duties_key slot).
  destruct (cache_get s2 _ _) as [o s3] eqn:Hget. simpl in Hst. subst s3.
  assert (o = Some (CachedSyncCommitteeDuties d)) as ->; [|done].
  apply (f_equal fst) in Hget. simpl in Hget. rewrite <-Hget.
  unfold cache_get, s2. cbn [with_client with_cache cache fst].
  rewrite Get_unfold. cbn [fst].
  unfold Set_. cbn [items with_items]. rewrite lookup_insert_eq. cbn [expiration value].
  by rewrite bool_decide_eq_false_2 by (unfold Add; lia).
Qed.

Lemma read_through_duties_hit_witness :
  let s := {| ethClient := duties_client;
              cache := Some (NewMemoryCache 300000000000 1000) |} in
  let s' := (GetSyncCommitteeDuties s demo_timing 12345).2 in
  GetSyncCommitteeDuties (with_client s' missed_slot_client) demo_timing 12345 =
  (Returns (Ok {| DutiesValidators := ["0xvalidator1"; "0xvalidator2"; "0xvalidator3"] |}),
   with_client s' missed_slot_client).
Proof.
  intros s s'.
  apply (read_through_duties_hit s s' (NewMemoryCache 300000000000 1000)
           demo_timing demo_timing 12345).
  - reflexivity.
  - reflexivity.
  - reflexivity.
  - simpl. lia.
Defined.

(** *** The errors the stack can produce *)

Lemma GetCurrentSlot_errors (w : Node) (now : Time) (e : error) :
  GetCurrentSlot w now = Err e → ∀ t, Is e t = true → t = ErrSlotNotFound.
Proof.
  unfold GetCurrentSlot.
  destruct (doBeaconRequest _) as [genesis|e0] eqn:Hgen.
  - unfold parseUint64. destruct (Sscanf_d _ _); [by intros [= <-]|].
    case_bool_decide; [by intros [= <-]|done].
  - intros [= <-]. by apply (doBeaconRequest_errors _ _ Hgen).
Qed.

(** Over the client of this repository, an error of the service is
    "not found" (possibly wrapped), the bound error of the query, or an
    error of no category: it is never a timeout, it is a bad request only
    as the bound error itself, and so the handler answers it with 404, 400
    or 500 and never with 408. *)
Theorem service_error_categories (w : Node) (now : Time) (s : validatorService)
    (tm : timing) (slot : Z) (e : error) :
  ethClient s = client w now →
  ((GetBlockReward s tm slot).1 = Returns (Err e) →
     IsTimeout e = false ∧
     (IsBadRequest e = true ↔ e = Sentinel ErrFutureSlot) ∧
     Handlers.handleServiceError e ≠ Handlers.StatusRequestTimeout) ∧
  ((GetSyncCommitteeDuties s tm slot).1 = Returns (Err e) →
     IsTimeout e = false ∧
     (IsBadRequest e = true ↔ e = Sentinel ErrSlotTooFarInFuture) ∧
     Handlers.handleServiceError e ≠ Handlers.StatusRequestTimeout).
Proof.
  intros Hcl.
  assert (Hplain : ∀ e0 : error, (∀ t, Is e0 t = true → t = ErrSlotNotFound) →
            IsTimeout e0 = false ∧ IsBadRequest e0 = false).
  { intros e0 He0. unfold IsTimeout, IsBadRequest.
    assert (Hno : ∀ t, t ≠ ErrSlotNotFound → Is e0 t = false).
    { intros t Ht. destruct (Is e0 t) eqn:Hit; [|done]. by apply He0 in Hit. }
    by rewrite !Hno. }
  assert (Hfin : ∀ (e0 : error) (bound : sentinel),
            (∀ t, Is e0 t = true → t = ErrSlotNotFound) ∨ e0 = Sentinel bound →
            bound = ErrFutureSlot ∨ bound = ErrSlotTooFarInFuture →
            IsTimeout e0 = false ∧
            (IsBadRequest e0 = true ↔ e0 = Sentinel bound) ∧
            Handlers.handleServiceError e0 ≠ Handlers.StatusRequestTimeout).
  { intros e0 bound [He0| ->] Hb.
    - destruct (Hplain e0 He0) as [Ht Hbr]. split_and!; [done| |].
      + split; [congruence|]. intros ->. destruct Hb as [-> | ->]; by vm_compute in Hbr.
      + unfold Handlers.handleServiceError. rewrite Hbr, Ht. by destruct (IsNotFound e0).
    - destruct Hb as [-> | ->]; by vm_compute. }
  split.
  - intros Hout. apply (Hfin e ErrFutureSlot); [|by left].
    destruct ((cache_get s (t_lookup tm) (reward_key slot)).1) as [v|] eqn:Hget.
    + exfalso. unfold GetBlockReward in Hout. fold (reward_key slot) in Hout.
      destruct (cache_get _ _ _) as [o s1]. cbn [fst] in Hget. subst o. by destruct v.
    + rewrite (GetBlockReward_miss s tm slot Hget) in Hout.
      rewrite Hcl in Hout at 1. cbn [client ClientGetCurrentSlot] in Hout.
      destruct (GetCurrentSlot w now) as [C|e0] eqn:Hcur.
      * case_bool_decide; [right; by injection Hout as <-|].
        left. by apply (GetBlockReward_fetch_errors w now s tm slot).
      * injection Hout as <-. left. simpl. by apply (GetCurrentSlot_errors w now).
  - intros Hout. apply (Hfin e ErrSlotTooFarInFuture); [|by right].
    destruct ((cache_get s (t_lookup tm) (duties_key slot)).1) as [v|] eqn:Hget.
    + exfalso. unfold GetSyncCommitteeDuties in Hout. fold (duties_key slot) in Hout.
      destruct (cache_get _ _ _) as [o s1]. cbn [fst] in Hget. subst o. by destruct v.
    + rewrite (GetSyncCommitteeDuties_miss s tm slot Hget) in Hout.
      rewrite Hcl in Hout at 1. cbn [client ClientGetCurrentSlot] in Hout.
      destruct (GetCurrentSlot w now) as [C|e0] eqn:Hcur.
      * case_bool_decide; [right; by injection Hout as <-|].
        left. by apply (GetSyncCommitteeDuties_fetch_errors w now s tm slot).
      * injection Hout as <-. left. simpl. by apply (GetCurrentSlot_errors w now).
Qed.

Lemma service_error_categories_witness :
  IsTimeout (Sentinel ErrSlotNotFound) = false ∧
  (IsBadRequest (Sentinel ErrSlotNotFound) = true ↔
     Sentinel ErrSlotNotFound = Sentinel ErrFutureSlot) ∧
  Handlers.handleServiceError (Sentinel ErrSlotNotFound) ≠ Handlers.StatusRequestTimeout.
Proof.
  apply (proj1 (service_error_categories demo_node demo_now demo_service demo_timing
                  12345 (Sentinel ErrSlotNotFound) eq_refl)).
  reflexivity.
Defined.

(** *** The committee of a period *)

(** All the slots of one sync-committee period (8192 slots) are answered
    from the same state of the node, the period's first slot: two slots of
    the same period get the same committee or the same error. *)
Theorem same_period_same_committee (w : Node) (s1 s2 : Z) :
  U64.in_range s1 → U64.in_range s2 →
  s1 / 8192 = s2 / 8192 →
  GetSyncCommittee_stateID s1 = s1 / 8192 * 8192 ∧
  GetSyncCommittee w s1 = GetSyncCommittee w s2.
Proof.
  intros H1 H2 Hsame.
  assert (Hid : ∀ s, U64.in_range s → GetSyncCommittee_stateID s = s / 8192 * 8192).
  { intros s Hs. rewrite (stateID_exact s Hs).
    rewrite Z.div_div by lia. change (32 * 256) with 8192. lia. }
  split; [by apply Hid|].
  unfold GetSyncCommittee, GetSyncCommittee_endpoint.
  by rewrite (Hid s1 H1), (Hid s2 H2), Hsame.
Qed.

Lemma same_period_same_committee_witness :
  GetSyncCommittee_stateID 8192 = 8192 / 8192 * 8192 ∧
  GetSyncCommittee demo_node 8192 = GetSyncCommittee demo_node 16383.
Proof.
  apply same_period_same_committee.
  - unfold U64.in_range, U64.modulus. lia.
  - unfold U64.in_range, U64.modulus. lia.
  - reflexivity.
Defined.

(** *** The current slot *)

(** With a genesis time [g] that the node reports and a clock not before
    1970, [GetCurrentSlot] fails when the clock is before [g] and otherwise
    returns the slot whose twelve seconds contain the clock:
    [g + 12*C ≤ now < g + 12*(C+1)]. *)
Theorem GetCurrentSlot_window (w : Node) (now : Time) (genesis : GenesisResponse) (g : Z) :
  doBeaconRequest (get_genesis w "genesis") = Ok genesis →
  Sscanf_d w (GenesisTime (GenesisDataOf genesis)) = inr g →
  U64.in_range g →
  U64.in_range (Unix now) →
  (Unix now < g → GetCurrentSlot w now = Err (Opaque "current time is before genesis")) ∧
  (g ≤ Unix now →
     ∃ C, GetCurrentSlot w now = Ok C ∧ 0 ≤ C ∧
          g + 12 * C ≤ Unix now < g + 12 * (C + 1)).
Proof.
  unfold U64.in_range, U64.modulus. intros Hgen Hscan Hg Hnow.
  unfold GetCurrentSlot, parseUint64. rewrite Hgen, Hscan.
  unfold U64.sub, U64.div. unfold U64.wrap, U64.modulus.
  rewrite (Z.mod_small (Unix now)) by lia. split.
  - intros Hlt. by rewrite bool_decide_eq_true_2.
  - intros Hge. rewrite bool_decide_eq_false_2 by lia.
    rewrite Z.mod_small by lia.
    exists ((Unix now - g) / 12). split; [done|].
    pose proof (Z.div_mod (Unix now - g) 12 ltac:(lia)).
    pose proof (Z.mod_pos_bound (Unix now - g) 12 ltac:(lia)).
    split; [apply Z.div_pos; lia|lia].
Qed.

Lemma GetCurrentSlot_window_witness :
  ∃ C, GetCurrentSlot demo_node demo_now = Ok C ∧ 0 ≤ C ∧
       1606824023 + 12 * C ≤ Unix demo_now < 1606824023 + 12 * (C + 1).
Proof.
  refine (proj2 (GetCurrentSlot_window demo_node demo_now
                   {| GenesisDataOf := {| GenesisTime := "1606824023" |} |} 1606824023
                   _ _ _ _) _).
  - reflexivity.
  - reflexivity.
  - unfold U64.in_range, U64.modulus. lia.
  - unfold U64.in_range, U64.modulus. by vm_compute.
  - by vm_compute.
Defined.
End ServiceMore.

(** * The handlers and the parsing of slots *)
Module ApiTheory.
Import Strconv GoStrings Api Statements Sessions ServiceTheory.

(** *** Strings *)

Lemma app_cons (c : ascii) (a b : string) : String c a +:+ b = String c (a +:+ b).
Proof. reflexivity. Qed.

Lemma length_app (a b : string) :
  String.length (a +:+ b) = (String.length a + String.length b)%nat.
Proof. induction a as [|c a IH]; simpl; [done|]. by rewrite IH. Qed.

Lemma substring_all (s : string) : String.substring 0 (String.length s) s = s.
Proof. induction s as [|c s IH]; simpl; [done|]. by rewrite IH. Qed.

Lemma substring_app_skip (p r : string) (n : nat) :
  String.substring (String.length p) n (p +:+ r) = String.substring 0 n r.
Proof. induction p as [|c p IH]; simpl; [done|]. exact IH. Qed.

Lemma substring_app_take (p r : string) :
  String.substring 0 (String.length p) (p +:+ r) = p.
Proof.
  induction p as [|c p IH]; simpl; [by destruct r|]. by rewrite IH.
Qed.

Lemma substring_split (s : string) (n : nat) :
  (n ≤ String.length s)%nat →
  s = String.substring 0 n s +:+ String.substring n (String.length s - n) s.
Proof.
  revert n. induction s as [|c s IH]; intros [|n] Hn.
  - done.
  - simpl in Hn. lia.
  - simpl. by rewrite substring_all.
  - simpl in Hn. cbn [String.substring String.length Nat.sub].
    rewrite app_cons. f_equal. apply IH. lia.
Qed.

Lemma prefix_app (p r : string) : String.prefix p (p +:+ r) = true.
Proof.
  induction p as [|c p IH]; [by destruct r|].
  rewrite app_cons. cbn [String.prefix]. by destruct (ascii_dec c c).
Qed.

Lemma prefix_inv (p s : string) :
  String.prefix p s = true → s = p +:+ TrimPrefix s p.
Proof.
  intros Hp. unfold TrimPrefix, HasPrefix. rewrite Hp.
  pose proof (prefix_length _ _ Hp) as Hlen.
  apply String.prefix_correct in Hp.
  rewrite (substring_split s (String.length p) Hlen) at 1. by rewrite Hp.
Qed.

Lemma TrimPrefix_app (p r : string) : TrimPrefix (p +:+ r) p = r.
Proof.
  unfold TrimPrefix, HasPrefix. rewrite prefix_app, length_app.
  replace (String.length p + String.length r - String.length p)%nat
    with (String.length r) by lia.
  by rewrite substring_app_skip, substring_all.
Qed.

Lemma HasSuffix_app (t suffix : string) : HasSuffix (t +:+ suffix) suffix = true.
Proof.
  unfold HasSuffix. rewrite length_app.
  replace (String.length t + String.length suffix - String.length suffix)%nat
    with (String.length t) by lia.
  rewrite substring_app_skip, substring_all.
  rewrite bool_decide_eq_true_2 by done.
  rewrite andb_true_r. apply Nat.leb_le. lia.
Qed.

Lemma HasSuffix_inv (s suffix : string) :
  HasSuffix s suffix = true → s = TrimSuffix s suffix +:+ suffix.
Proof.
  intros Hs. unfold TrimSuffix. rewrite Hs. unfold HasSuffix in Hs.
  apply andb_true_iff in Hs as [Hlen%Nat.leb_le Heq%bool_decide_eq_true].
  rewrite (substring_split s (String.length s - String.length suffix)) at 1 by lia.
  replace (String.length s - (String.length s - String.length suffix))%nat
    with (String.length suffix) by lia.
  by rewrite Heq.
Qed.

Lemma TrimSuffix_app (t suffix : string) : TrimSuffix (t +:+ suffix) suffix = t.
Proof.
  unfold TrimSuffix. rewrite HasSuffix_app, length_app.
  replace (String.length t + String.length suffix - String.length suffix)%nat
    with (String.length t) by lia.
  apply substring_app_take.
Qed.

Lemma all_digits_app (a b : string) :
  all_digits (a +:+ b) = all_digits a && all_digits b.
Proof.
  induction a as [|c a IH]; simpl; [done|]. rewrite IH. by rewrite andb_assoc.
Qed.

Lemma digits_no_slash (s : string) : all_digits s = true → TrimSuffix s "/" = s.
Proof.
  intros Hd. destruct (HasSuffix s "/") eqn:Hs; [|unfold TrimSuffix; by rewrite Hs].
  apply HasSuffix_inv in Hs. rewrite Hs, all_digits_app in Hd.
  apply andb_true_iff in Hd as [_ Hd]. by vm_compute in Hd.
Qed.

(** *** [strconv.ParseUint] *)

Lemma ParseUint_loop_spec (s : string) (n m : Z) :
  0 ≤ n ≤ maxUint64 →
  ParseUint_loop s n = inr m ↔
  all_digits s = true ∧ m = n * 10 ^ Z.of_nat (String.length s) + decimal_value s ∧
  m ≤ maxUint64.
Proof.
  revert n. induction s as [|c s IH]; intros n Hn.
  - simpl. split.
    + intros [= <-]. split_and!; [done|lia|lia].
    + intros (_ & -> & _). f_equal. lia.
  - cbn [ParseUint_loop all_digits decimal_value String.length].
    rewrite digit_value_is_digit. destruct (is_digit c) eqn:Hc; [|by split; [|intros []]].
    set (d := Z.of_nat (nat_of_ascii c) - 48).
    assert (Hd : 0 ≤ d ≤ 9).
    { unfold is_digit in Hc. apply andb_true_iff in Hc as [?%Nat.leb_le ?%Nat.leb_le].
      subst d. lia. }
    assert (Hpow : 1 ≤ 10 ^ Z.of_nat (String.length s)).
    { pose proof (Z.pow_pos_nonneg 10 (Z.of_nat (String.length s))). lia. }
    assert (Hcut : cutoff = 1844674407370955162) by reflexivity.
    assert (Hmax : maxUint64 = 18446744073709551615) by reflexivity.
    rewrite Nat2Z.inj_succ, Z.pow_succ_r by lia. simpl andb.
    case_bool_decide as Hover.
    { split; [done|]. intros (Hs & -> & Hle).
      pose proof (decimal_value_nonneg s Hs). nia. }
    unfold U64.mul, U64.add, U64.wrap, U64.modulus.
    rewrite (Z.mod_small (n * 10)) by lia.
    destruct (decide (n * 10 + d ≤ maxUint64)) as [Hfit|Hbig].
    + rewrite (Z.mod_small (n * 10 + d)) by lia.
      rewrite !bool_decide_eq_false_2 by lia. simpl orb.
      rewrite (IH (n * 10 + d)) by lia.
      split; intros (Hs & -> & Hle); (split_and!; [done|lia|lia]).
    + assert (Hwrap : (n * 10 + d) mod 2 ^ 64 = n * 10 + d - 2 ^ 64).
      { symmetry. apply (Z.mod_unique _ _ 1); lia. }
      rewrite Hwrap. rewrite (bool_decide_eq_true_2 (_ < _)) by lia. simpl orb.
      split; [done|]. intros (Hs & -> & Hle).
      pose proof (decimal_value_nonneg s Hs). nia.
Qed.

Lemma ParseUint_spec (s : string) (m : Z) :
  ParseUint s = inr m ↔ nonneg_decimal s ∧ decimal_value s = m ∧ m ≤ maxUint64.
Proof.
  unfold ParseUint, nonneg_decimal. destruct s as [|c s].
  - split; [done|]. by intros [[? _] _].
  - rewrite ParseUint_loop_spec by (unfold maxUint64; lia).
    split.
    + intros (Hd & -> & Hle). split_and!; [done|done|lia|lia].
    + intros ((_ & Hd) & <- & Hle). split_and!; [done|lia|lia].
Qed.

(** *** [%d] prints decimal digits *)

Lemma pretty_N_char_digit (k : N) :
  (k < 10)%N →
  is_digit (pretty_N_char k) = true ∧
  Z.of_nat (nat_of_ascii (pretty_N_char k)) - 48 = Z.of_N k.
Proof.
  intros Hk.
  assert (k = 0 ∨ k = 1 ∨ k = 2 ∨ k = 3 ∨ k = 4 ∨ k = 5 ∨ k = 6 ∨ k = 7 ∨ k = 8 ∨ k = 9)%N
    as Hcases by lia.
  repeat (destruct Hcases as [->|Hcases]; [by vm_compute|]). subst. by vm_compute.
Qed.

Lemma pretty_N_go_digits (x : N) (s : string) :
  all_digits (pretty_N_go x s) = all_digits s ∧
  decimal_value (pretty_N_go x s) =
    Z.of_N x * 10 ^ Z.of_nat (String.length s) + decimal_value s.
Proof.
  revert s. induction (N.lt_wf_0 x) as [x _ IH]; intros s.
  destruct (decide (x = 0%N)) as [->|Hx].
  { rewrite pretty_N_go_0. split; [done|lia]. }
  rewrite pretty_N_go_step by lia.
  destruct (IH (x `div` 10)%N ltac:(apply N.div_lt; lia)
              (String (pretty_N_char (x `mod` 10)) s)) as [Hd Hv].
  destruct (pretty_N_char_digit (x `mod` 10)%N ltac:(apply N.mod_lt; lia)) as [Hc Hcv].
  rewrite Hd, Hv. cbn [all_digits decimal_value String.length]. rewrite Hc, Hcv.
  split; [done|].
  rewrite Nat2Z.inj_succ, Z.pow_succ_r by lia.
  pose proof (N.div_mod x 10 ltac:(lia)) as Hdm.
  assert (Z.of_N x = 10 * Z.of_N (x `div` 10) + Z.of_N (x `mod` 10)) as -> by lia.
  lia.
Qed.

Lemma fmt_d_digits (n : Z) :
  0 ≤ n → nonneg_decimal (U64.fmt_d n) ∧ decimal_value (U64.fmt_d n) = n.
Proof.
  intros Hn. unfold U64.fmt_d, pretty, pretty_Z. destruct n as [|p|p]; [|clear Hn|lia].
  { split; [split; done|done]. }
  unfold pretty, pretty_positive, pretty, pretty_N.
  rewrite decide_False by done.
  destruct (pretty_N_go_digits (N.pos p) "") as [Hd Hv].
  split; [split; [|done]|].
  - intros Hempty. rewrite Hempty in Hv. simpl in Hv. lia.
  - rewrite Hv. simpl. lia.
Qed.

(** *** Parsing a slot *)

(** [parseSlot] returns a slot exactly for the strings of one or more
    decimal digits whose value is below [2^64], and the slot is that value
    (no sign, no blank, no underscore is accepted); every other string is
    an "invalid slot format" error.  It reads back what [%d] prints. *)
Theorem parseSlot_accepts_decimal (s : string) :
  (∀ n, ServiceSlot.parseSlot s = Ok n ↔
        nonneg_decimal s ∧ decimal_value s = n ∧ n < 2 ^ 64) ∧
  (∀ e, ServiceSlot.parseSlot s = Err e →
        ∃ cause, e = Wrapf "invalid slot format" (NumError cause)) ∧
  (∀ n, U64.in_range n → ServiceSlot.parseSlot (U64.fmt_d n) = Ok n).
Proof.
  unfold ServiceSlot.parseSlot. split_and!.
  - intros n. pose proof (ParseUint_spec s n) as Hspec. unfold maxUint64 in Hspec.
    destruct (ParseUint s) as [cause|m].
    + split; [done|]. intros (Hd & Hv & Hlt).
      assert (inl cause = inr n :> num_error + Z) by (apply Hspec; split_and!; [done..|lia]).
      done.
    + split.
      * intros [= ->]. destruct (proj1 Hspec eq_refl) as (? & ? & ?).
        split_and!; [done..|lia].
      * intros (Hd & Hv & Hlt). f_equal.
        assert (inr m = inr n :> num_error + Z) as [= ->]; [|done].
        apply Hspec. split_and!; [done..|lia].
  - intros e. destruct (ParseUint s) as [cause|]; [|done]. intros [= <-]. eauto.
  - intros n [Hn Hlt]. destruct (fmt_d_digits n Hn) as [Hd Hv].
    assert (Hp : ParseUint (U64.fmt_d n) = inr n).
    { apply ParseUint_spec. split_and!; [done..|]. unfold maxUint64, U64.modulus in *. lia. }
    by rewrite Hp.
Qed.

Lemma parseSlot_accepts_decimal_witness :
  ServiceSlot.parseSlot (U64.fmt_d 18446744073709551615) = Ok 18446744073709551615.
Proof.
  apply (proj2 (proj2 (parseSlot_accepts_decimal ""))).
  unfold U64.in_range, U64.modulus. lia.
Defined.

(** [parseSlotFromPath] returns a slot exactly for the paths made of the
    prefix, one or more decimal digits of a value below [2^64] and at most
    one closing slash; in particular the path of slot [n], as [%d] prints
    it, is read back as [n]. *)
Theorem parseSlotFromPath_accepts (path prefix : string) (n : Z) :
  (parseSlotFromPath path prefix = Ok n ↔
   ∃ d, (path = prefix +:+ d ∨ path = prefix +:+ d +:+ "/") ∧
        nonneg_decimal d ∧ decimal_value d = n ∧ n < 2 ^ 64) ∧
  (U64.in_range n → parseSlotFromPath (prefix +:+ U64.fmt_d n) prefix = Ok n).
Proof.
  assert (Hfwd : ∀ d, nonneg_decimal d → decimal_value d = n → n < 2 ^ 64 →
                      path = prefix +:+ d ∨ path = prefix +:+ d +:+ "/" →
                      parseSlotFromPath path prefix = Ok n).
  { intros d Hd Hv Hlt Hpath.
    assert (Hp : ParseUint d = inr n).
    { apply ParseUint_spec. split_and!; [done..|]. unfold maxUint64. lia. }
    assert (Hslot : TrimSuffix (TrimPrefix path prefix) "/" = d).
    { destruct Hpath as [-> | ->]; rewrite TrimPrefix_app.
      - apply digits_no_slash. apply Hd.
      - apply TrimSuffix_app. }
    unfold parseSlotFromPath.
    assert (HasPrefix path prefix = true) as ->.
    { destruct Hpath as [-> | ->]; apply prefix_app. }
    cbn [negb]. rewrite Hslot, Hp.
    rewrite bool_decide_eq_false_2; [done|]. apply Hd. }
  split.
  - split.
    + unfold parseSlotFromPath.
      destruct (HasPrefix path prefix) eqn:Hpre; [|done]. cbn [negb].
      set (rest := TrimPrefix path prefix).
      case_bool_decide as Hempty; [done|].
      destruct (ParseUint (TrimSuffix rest "/")) as [|m] eqn:Hp; [done|].
      intros [= ->]. apply ParseUint_spec in Hp as (Hd & Hv & Hle).
      exists (TrimSuffix rest "/"). split_and!; [|done|done|unfold maxUint64 in Hle; lia].
      apply prefix_inv in Hpre. fold rest in Hpre.
      destruct (HasSuffix rest "/") eqn:Hsuf.
      * right. rewrite Hpre at 1. f_equal. by apply HasSuffix_inv.
      * left. rewrite Hpre at 1. f_equal. unfold TrimSuffix. by rewrite Hsuf.
    + intros (d & Hpath & Hd & Hv & Hlt). by apply (Hfwd d).
  - intros [Hn Hlt]. destruct (fmt_d_digits n Hn) as [Hd Hv].
    clear Hfwd.
    assert (Hp : ParseUint (U64.fmt_d n) = inr n).
    { apply ParseUint_spec. split_and!; [done..|]. unfold maxUint64, U64.modulus in *. lia. }
    unfold parseSlotFromPath. unfold HasPrefix at 1. rewrite prefix_app. cbn [negb].
    rewrite TrimPrefix_app, (digits_no_slash _ (proj2 Hd)), Hp.
    rewrite bool_decide_eq_false_2; [done|]. apply Hd.
Qed.

Lemma parseSlotFromPath_accepts_witness :
  parseSlotFromPath ("/blockreward/" +:+ U64.fmt_d 12345) "/blockreward/" = Ok 12345.
Proof.
  apply (proj2 (parseSlotFromPath_accepts "" "/blockreward/" 12345)).
  unfold U64.in_range, U64.modulus. lia.
Defined.

(** *** The responses of the handlers *)

Lemma handleServiceError_response (e : error) :
  StatusCode (handleServiceError e) = Handlers.handleServiceError e ∧
  RespData (Body (handleServiceError e)) = None ∧
  RespError (Body (handleServiceError e)) =
    (if bool_decide (Handlers.handleServiceError e = Handlers.StatusInternalServerError)
     then "internal server error" else ErrorText.Error e).
Proof.
  unfold handleServiceError, Handlers.handleServiceError.
  destruct (IsNotFound e); [done|]. destruct (IsBadRequest e); [done|].
  by destruct (IsTimeout e).
Qed.

(** What the two handlers answer.  The status is 200 exactly when the
    path holds a slot and the service returns a result, which is then the
    body's data; an error response carries no data; a path that holds no
    slot is answered 400 "invalid slot number" whatever the service is; and
    a 500 always reads "internal server error", never the text of the error
    that caused it. *)
Theorem handler_responses (svc : ValidatorService) (path : string) :
  let reward := GetBlockReward svc path in
  let duties := GetSyncDuties svc path in
  (StatusCode reward = 200 ↔
     ∃ n r, parseSlotFromPath path "/blockreward/" = Ok n ∧
            SvcGetBlockReward svc n = Ok r ∧
            Body reward = {| RespData := Some (DataBlockReward r); RespError := "" |}) ∧
  (StatusCode duties = 200 ↔
     ∃ n d, parseSlotFromPath path "/syncduties/" = Ok n ∧
            SvcGetSyncCommitteeDuties svc n = Ok d ∧
            Body duties = {| RespData := Some (DataSyncCommitteeDuties d); RespError := "" |}) ∧
  (StatusCode reward ≠ 200 → RespData (Body reward) = None) ∧
  (StatusCode duties ≠ 200 → RespData (Body duties) = None) ∧
  ((∀ n, parseSlotFromPath path "/blockreward/" ≠ Ok n) → ∀ svc',
     GetBlockReward svc' path =
     {| StatusCode := 400;
        Body := {| RespData := None; RespError := "invalid slot number" |} |}) ∧
  ((∀ n, parseSlotFromPath path "/syncduties/" ≠ Ok n) → ∀ svc',
     GetSyncDuties svc' path =
     {| StatusCode := 400;
        Body := {| RespData := None; RespError := "invalid slot number" |} |}) ∧
  (StatusCode reward = 500 → RespError (Body reward) = "internal server error") ∧
  (StatusCode duties = 500 → RespError (Body duties) = "internal server error").
Proof.
  assert (Hcodes : ∀ e, Handlers.handleServiceError e ≠ 200).
  { intros e. unfold Handlers.handleServiceError.
    destruct (IsNotFound e); [done|]. destruct (IsBadRequest e); [done|].
    by destruct (IsTimeout e). }
  intros reward duties. subst reward duties. unfold GetBlockReward, GetSyncDuties.
  split_and!.
  - destruct (parseSlotFromPath path "/blockreward/") as [n|]; [|split; [done|by intros (?&?&?&_)]].
    destruct (SvcGetBlockReward svc n) as [r|e] eqn:Hsvc.
    + split; [intros _; by exists n, r|done].
    + destruct (handleServiceError_response e) as (Hst & _). rewrite Hst.
      split; [by intros ?%Hcodes|]. intros (n' & r & [= <-] & Hr & _). congruence.
  - destruct (parseSlotFromPath path "/syncduties/") as [n|]; [|split; [done|by intros (?&?&?&_)]].
    destruct (SvcGetSyncCommitteeDuties svc n) as [d|e] eqn:Hsvc.
    + split; [intros _; by exists n, d|done].
    + destruct (handleServiceError_response e) as (Hst & _). rewrite Hst.
      split; [by intros ?%Hcodes|]. intros (n' & d & [= <-] & Hd & _). congruence.
  - destruct (parseSlotFromPath path "/blockreward/") as [n|]; [|done].
    destruct (SvcGetBlockReward svc n) as [r|e]; [done|].
    intros _. apply handleServiceError_response.
  - destruct (parseSlotFromPath path "/syncduties/") as [n|]; [|done].
    destruct (SvcGetSyncCommitteeDuties svc n) as [d|e]; [done|].
    intros _. apply handleServiceError_response.
  - intros Hno svc'. destruct (parseSlotFromPath path "/blockreward/") as [n|]; [|done].
    by destruct (Hno n).
  - intros Hno svc'. destruct (parseSlotFromPath path "/syncduties/") as [n|]; [|done].
    by destruct (Hno n).
  - destruct (parseSlotFromPath path "/blockreward/") as [n|]; [|done].
    destruct (SvcGetBlockReward svc n) as [r|e]; [done|].
    destruct (handleServiceError_response e) as (Hst & _ & Herr). rewrite Hst, Herr.
    intros Hs. by rewrite bool_decide_eq_true_2.
  - destruct (parseSlotFromPath path "/syncduties/") as [n|]; [|done].
    destruct (SvcGetSyncCommitteeDuties svc n) as [d|e]; [done|].
    destruct (handleServiceError_response e) as (Hst & _ & Herr). rewrite Hst, Herr.
    intros Hs. by rewrite bool_decide_eq_true_2.
Qed.

Lemma handler_responses_witness :
  GetBlockReward failing_service "/blockreward/invalid" =
  {| StatusCode := 400;
     Body := {| RespData := None; RespError := "invalid slot number" |} |} ∧
  RespError (Body (GetBlockReward failing_service "/blockreward/12346"))
  = "internal server error".
Proof.
  split.
  - apply (proj1 (proj2 (proj2 (proj2 (proj2
             (handler_responses failing_service "/blockreward/invalid")))))).
    intros n. by vm_compute.
  - apply (proj1 (proj2 (proj2 (proj2 (proj2 (proj2 (proj2
             (handler_responses failing_service "/blockreward/12346")))))))).
    by vm_compute.
Defined.
End ApiTheory.
